(** * Fisher-formalism analysis of a parametric galaxy image

    A shallow embedding of [smff/analysis/fisher.py]: the class [Fisher],
    its constructor and its methods, over an abstract arithmetic (the
    floating-point operations of Python and numpy are kept uninterpreted,
    so every generic statement holds of binary64 as it does of the reals),
    with two instances of that arithmetic: IEEE binary64 through Rocq's
    primitive floats, and the real numbers. *)

From Stdlib Require Import PrimFloat FloatOps FloatAxioms Reals Lra.
From stdpp Require Import gmap strings list vector finite.

(** ** Exceptions and the error monad

    Python code fails by raising; a method that can raise returns a
    [result]. *)

Inductive exn : Type :=
  | KeyError          (* a dict has no such key *)
  | IndexError        (* a sequence index is out of range *)
  | ValueError        (* math.sqrt of a negative number *)
  | LinAlgError       (* numpy.linalg could not invert / decompose *)
  | ExternalError.    (* any failure raised inside a collaborator *)

Inductive result (A : Type) : Type :=
  | Ok (a : A)
  | Raise (e : exn).
Arguments Ok {A} a.
Arguments Raise {A} e.

Global Instance result_ret : MRet result := λ A a, Ok a.
Global Instance result_bind : MBind result := λ A B f m,
  match m with
  | Ok a => f a
  | Raise e => Raise e
  end.
Global Instance result_fmap : FMap result := λ A B f m,
  match m with
  | Ok a => Ok (f a)
  | Raise e => Raise e
  end.

(** [d[k]] on a dict. *)
Definition getitem `{Countable K} {V} (d : gmap K V) (k : K) : result V :=
  match d !! k with
  | Some v => Ok v
  | None => Raise KeyError
  end.

(** [l[i]] on a sequence, for an index that is not negative. *)
Definition index {A} (l : list A) (i : nat) : result A :=
  match l !! i with
  | Some x => Ok x
  | None => Raise IndexError
  end.

(** [for x in l: s = body(x, s)], stopping at the first exception. *)
Fixpoint for_each {A S} (l : list A) (body : A → S → result S) (s : S)
  : result S :=
  match l with
  | [] => Ok s
  | x :: l => s' ← body x s; for_each l body s'
  end.

(** [range(n)] *)
Definition range (n : nat) : list nat := seq 0 n.

(** All ordered pairs and triples of names, in the order in which the
    nested loops of the source visit them. *)
Definition pairs {A} (l : list A) : list (A * A) :=
  a ← l; b ← l; [(a, b)].
Definition triples {A} (l : list A) : list (A * A * A) :=
  a ← l; b ← l; c ← l; [(a, b, c)].

(** ** Arithmetic

    The scalar operations the source applies to Python floats and to the
    entries of numpy arrays. *)

Class Arith (F : Type) : Type := {
  zero : F;                 (* the literal 0, and the entries of np.zeros *)
  two : F;                  (* the literal 2 *)
  four : F;                 (* the literal 4 *)
  neg_half : F;             (* the literal -.5 *)
  add : F → F → F;
  sub : F → F → F;
  mul : F → F → F;
  div : F → F → F;          (* numpy division: never raises *)
  math_sqrt : F → result F; (* math.sqrt: ValueError below zero *)
  np_sqrt : F → F;          (* numpy.sqrt: never raises *)
}.

(** IEEE 754 binary64, the arithmetic the source runs on. *)
Global Instance float_arith : Arith float := {|
  zero := 0%float;
  two := 2%float;
  four := 4%float;
  neg_half := (-0.5)%float;
  add := PrimFloat.add;
  sub := PrimFloat.sub;
  mul := PrimFloat.mul;
  div := PrimFloat.div;
  math_sqrt := λ x,
    if PrimFloat.ltb x 0%float then Raise ValueError else Ok (PrimFloat.sqrt x);
  np_sqrt := PrimFloat.sqrt;
|}.

(** The real numbers: the source's formulas read in exact arithmetic. *)
Global Instance real_arith : Arith R := {|
  zero := 0%R;
  two := 2%R;
  four := 4%R;
  neg_half := (- / 2)%R;
  add := Rplus;
  sub := Rminus;
  mul := Rmult;
  div := Rdiv;
  math_sqrt := λ x,
    if Rlt_dec x 0 then Raise ValueError else Ok (R_sqrt.sqrt x);
  np_sqrt := R_sqrt.sqrt;
|}.

(** ** Pixel images

    Every image the partial-derivative renderer produces has the shape of
    the stamp; an image is the vector of its [npix] pixels (the array in
    row-major order). *)

Section Images.
Context {F : Type} `{Arith F} {npix : nat}.

Definition img_add (a b : vec F npix) : vec F npix := vzip_with add a b.
Definition img_sub (a b : vec F npix) : vec F npix := vzip_with sub a b.
Definition img_mul (a b : vec F npix) : vec F npix := vzip_with mul a b.
(** [image / scalar] *)
Definition img_div_scalar (a : vec F npix) (c : F) : vec F npix :=
  vmap (λ x, div x c) a.
(** [scalar * image] *)
Definition img_scale (c : F) (a : vec F npix) : vec F npix :=
  vmap (mul c) a.
(** The integer [0] a summation starts from, seen as an image. *)
Definition img_zero : vec F npix := vreplicate npix zero.
End Images.

(** ** Sums of arrays

    [array.sum()] and [np.sum(array)] on a contiguous array of floats,
    read in row-major order. numpy's add-reduction starts from the
    identity 0 and adds to it the pairwise sum of the entries: fewer than
    8 entries are added one after the other; up to 128 entries are added,
    8 at a time, into 8 partial sums, which are then added two by two,
    and the entries left over are added one after the other; a longer
    array is cut in two at a multiple of 8 near its middle, and the sums
    of the two parts are added. *)

Section NumpySum.
Context {F : Type} `{Arith F}.

(** [r[k] += a[i + k]] for [blocks] groups of 8 entries of [l]: the
    partial sums, and the entries that are left. *)
Fixpoint add_blocks (blocks : nat) (r l : list F) : list F * list F :=
  match blocks with
  | 0 => (r, l)
  | S blocks => add_blocks blocks (zip_with add r (take 8 l)) (drop 8 l)
  end.

(** A block of 8 to 128 entries. *)
Definition sum_block (l : list F) : F :=
  let '(r, rest) := add_blocks (length l / 8 - 1) (take 8 l) (drop 8 l) in
  match r with
  | [r0; r1; r2; r3; r4; r5; r6; r7] =>
      foldl add
        (add (add (add r0 r1) (add r2 r3)) (add (add r4 r5) (add r6 r7)))
        rest
  | _ => zero
  end.

(** [pairwise_sum(a, n)]; the recursion halves the array, [fuel] bounds
    its depth. *)
Fixpoint pairwise_sum (fuel : nat) (l : list F) : F :=
  let n := length l in
  if decide (n < 8) then foldl add zero l
  else if decide (n ≤ 128) then sum_block l
  else
    match fuel with
    | 0 => zero
    | S fuel =>
        let n2 := n / 2 - (n / 2) mod 8 in
        add (pairwise_sum fuel (take n2 l)) (pairwise_sum fuel (drop n2 l))
    end.

Definition np_sum (l : list F) : F := add zero (pairwise_sum (length l) l).
End NumpySum.

(** [image.sum()] *)
Definition img_sum `{Arith F} {npix} (a : vec F npix) : F :=
  np_sum (vec_to_list a).

(** ** The matrix and labeling layer *)

Section Labeling.
Context {F : Type} `{Arith F}.
(** [self.param_names] and [self.num_params], as the constructor sets
    them. *)
Variable param_names : list string.
Let num_params : nat := length param_names.

(** [array[i][j] = element] on an array of arrays. *)
Definition setitem2 (array : list (list F)) (i j : nat) (element : F)
  : result (list (list F)) :=
  row ← index array i;
  if decide (j < length row)
  then Ok (<[i := <[j := element]> row]> array)
  else Raise IndexError.

Definition matrix_to_numpy_array (matrix : gmap (string * string) F)
  : result (list (list F)) :=
  let array := replicate num_params (replicate num_params zero) in
  for_each (range num_params) (λ i array,
    for_each (range num_params) (λ j array,
      param_i ← index param_names i;
      param_j ← index param_names j;
      element ← getitem matrix (param_i, param_j);
      setitem2 array i j element) array) array.

Definition numpy_array_to_matrix (array : list (list F))
  : result (gmap (string * string) F) :=
  for_each (range num_params) (λ i matrix,
    for_each (range num_params) (λ j matrix,
      param_i ← index param_names i;
      param_j ← index param_names j;
      row ← index array i;
      element ← index row j;
      Ok (<[(param_i, param_j) := element]> matrix)) matrix) ∅.
End Labeling.

(** ** The methods of [Fisher]

    Each attribute a method reads through [self] is a variable of the
    section; a method is a function of the attributes it reads. *)

Section Methods.
Context {F : Type} `{Arith F} {npix : nat}.
Abbreviation image := (vec F npix).

(** Collaborators: [gparameters.get_galaxies_models] applied to a
    parameter vector, and [get_image] of the renderer of the partials
    ([images.ImageRenderer(stamp=image_renderer.stamp)]). *)
Context {galaxy : Type}.
Variable get_galaxies_models : gmap string F → result galaxy.
Variable partials_get_image : galaxy → result image.

(** Attributes. *)
Variable param_names : list string.
Let num_params : nat := length param_names.
Variable params : gmap string F.          (* self.g_parameters.params *)
Variable steps : gmap string F.
Variable var_noise : F.
Variable derivatives_images : gmap string image.
Variable second_derivatives_images : gmap (string * string) image.
Variable fisher_matrix_images : gmap (string * string) image.
Variable covariance_matrix : gmap (string * string) F.
Variable bias_matrix_images : gmap (string * string * string) image.
Variable bias_images : gmap string image.

(** [copy.deepcopy] of a dict of floats: the copy is a value of its
    own, an update of the copy leaves the original as it was. *)
Definition deepcopy (d : gmap string F) : gmap string F := d.

(** [d[k] += rhs] and [d[k] -= rhs]: the old value is read first, then
    the right-hand side is evaluated, then the sum is stored. *)
Definition iadd_item (d : gmap string F) (k : string) (rhs : result F)
  : result (gmap string F) :=
  x ← getitem d k; s ← rhs; Ok (<[k := add x s]> d).
Definition isub_item (d : gmap string F) (k : string) (rhs : result F)
  : result (gmap string F) :=
  x ← getitem d k; s ← rhs; Ok (<[k := sub x s]> d).

Definition get_derivative_images : result (gmap string image) :=
  for_each (range num_params) (λ i partials_images,
    param ← index param_names i;
    params_up ← iadd_item (deepcopy params) param (getitem steps param);
    params_down ← isub_item (deepcopy params) param (getitem steps param);
    gal_up ← get_galaxies_models params_up;
    gal_down ← get_galaxies_models params_down;
    img_up ← partials_get_image gal_up;
    img_down ← partials_get_image gal_down;
    step ← getitem steps param;
    Ok (<[param := img_div_scalar (img_sub img_up img_down) (mul two step)]>
          partials_images)) ∅.

Definition get_second_derivatives_images
  : result (gmap (string * string) image) :=
  for_each (range num_params) (λ i secondDs_gal,
    for_each (range num_params) (λ j secondDs_gal,
      param_i ← index param_names i;
      param_j ← index param_names j;

      params_iup_jup ← iadd_item (deepcopy params) param_i (getitem steps param_i);
      params_iup_jup ← iadd_item params_iup_jup param_j (getitem steps param_j);

      params_idown_jup ← isub_item (deepcopy params) param_i (getitem steps param_i);
      params_idown_jup ← iadd_item params_idown_jup param_j (getitem steps param_j);

      params_iup_jdown ← iadd_item (deepcopy params) param_i (getitem steps param_i);
      params_iup_jdown ← isub_item params_iup_jdown param_j (getitem steps param_j);

      params_idown_jdown ← isub_item (deepcopy params) param_i (getitem steps param_i);
      params_idown_jdown ← isub_item params_idown_jdown param_j (getitem steps param_j);

      gal_iup_jup ← get_galaxies_models params_iup_jup;
      gal_idown_jup ← get_galaxies_models params_idown_jup;
      gal_iup_jdown ← get_galaxies_models params_iup_jdown;
      gal_idown_jdown ← get_galaxies_models params_idown_jdown;

      img_iup_jup ← partials_get_image gal_iup_jup;
      img_idown_jup ← partials_get_image gal_idown_jup;
      img_iup_jdown ← partials_get_image gal_iup_jdown;
      img_idown_jdown ← partials_get_image gal_idown_jdown;

      step_i ← getitem steps param_i;
      step_j ← getitem steps param_j;
      Ok (<[(param_i, param_j) :=
             img_div_scalar
               (img_sub (img_sub (img_add img_iup_jup img_idown_jdown)
                                 img_idown_jup) img_iup_jdown)
               (mul (mul four step_i) step_j)]> secondDs_gal))
      secondDs_gal) ∅.

Definition get_fisher_matrix_images : result (gmap (string * string) image) :=
  for_each (range num_params) (λ i FisherM_images,
    for_each (range num_params) (λ j FisherM_images,
      param_i ← index param_names i;
      param_j ← index param_names j;
      derivative1 ← getitem derivatives_images param_i;
      derivative2 ← getitem derivatives_images param_j;
      Ok (<[(param_i, param_j) :=
             img_div_scalar (img_mul derivative1 derivative2) var_noise]>
            FisherM_images)) FisherM_images) ∅.

Definition get_fisher_matrix : result (gmap (string * string) F) :=
  for_each (range num_params) (λ i FisherM,
    for_each (range num_params) (λ j FisherM,
      param_i ← index param_names i;
      param_j ← index param_names j;
      fisher_image ← getitem fisher_matrix_images (param_i, param_j);
      Ok (<[(param_i, param_j) := img_sum fisher_image]> FisherM))
      FisherM) ∅.

Definition get_correlation_matrix : result (gmap (string * string) F) :=
  for_each (range num_params) (λ i correlation_matrix,
    for_each (range num_params) (λ j correlation_matrix,
      param_i ← index param_names i;
      param_j ← index param_names j;
      sigma_ij ← getitem covariance_matrix (param_i, param_j);
      sigma_i ← (c ← getitem covariance_matrix (param_i, param_i); math_sqrt c);
      sigma_j ← (c ← getitem covariance_matrix (param_j, param_j); math_sqrt c);
      Ok (<[(param_i, param_j) := div sigma_ij (mul sigma_i sigma_j)]>
            correlation_matrix)) correlation_matrix) ∅.

Definition get_bias_matrix_images
  : result (gmap (string * string * string) image) :=
  for_each (range num_params) (λ i BiasM_images,
    for_each (range num_params) (λ j BiasM_images,
      for_each (range num_params) (λ k BiasM_images,
        param_i ← index param_names i;
        param_j ← index param_names j;
        param_k ← index param_names k;
        derivative ← getitem derivatives_images param_i;
        second ← getitem second_derivatives_images (param_j, param_k);
        Ok (<[(param_i, param_j, param_k) :=
               img_div_scalar (img_mul derivative second) var_noise]>
              BiasM_images)) BiasM_images) BiasM_images) ∅.

Definition get_bias_matrix : result (gmap (string * string * string) F) :=
  for_each (range num_params) (λ i BiasM,
    for_each (range num_params) (λ j BiasM,
      for_each (range num_params) (λ k BiasM,
        param_i ← index param_names i;
        param_j ← index param_names j;
        param_k ← index param_names k;
        bias_image ← getitem bias_matrix_images (param_i, param_j, param_k);
        Ok (<[(param_i, param_j, param_k) := img_sum bias_image]> BiasM))
        BiasM) BiasM) ∅.

Definition get_bias_images : result (gmap string image) :=
  for_each (range num_params) (λ i bias_images,
    summation ←
      for_each (range num_params) (λ j summation,
        for_each (range num_params) (λ k summation,
          for_each (range num_params) (λ l summation,
            param_i ← index param_names i;
            param_j ← index param_names j;
            param_k ← index param_names k;
            param_l ← index param_names l;
            cov_ij ← getitem covariance_matrix (param_i, param_j);
            cov_kl ← getitem covariance_matrix (param_k, param_l);
            bias_jkl ← getitem bias_matrix_images (param_j, param_k, param_l);
            Ok (img_add summation (img_scale (mul cov_ij cov_kl) bias_jkl)))
            summation) summation) img_zero;
    param_i ← index param_names i;
    Ok (<[param_i := img_scale neg_half summation]> bias_images)) ∅.

Definition get_biases : result (gmap string F) :=
  for_each (range num_params) (λ i biases,
    param_i ← index param_names i;
    bias_image ← getitem bias_images param_i;
    Ok (<[param_i := img_sum bias_image]> biases)) ∅.
End Methods.

(** [get_snr(img, var_noise)] *)
Definition get_snr `{Arith F} (img : list F) (var_noise : F) : F :=
  np_sqrt (div (np_sum ((λ x, mul x x) <$> img)) var_noise).

(** ** The parameter set and the analysis object *)

(** What the constructor reads of a [GParameters] object. [id_params]
    is a dict in insertion order: galaxy id to the parameters of that
    galaxy. *)
Record GParameters (F : Type) : Type := {
  params : gmap string F;
  id_params : list (string * gmap string F);
  ordered_fit_names : list string;
  num_galaxies : nat;
}.
Arguments params {F} _.
Arguments id_params {F} _.
Arguments ordered_fit_names {F} _.
Arguments num_galaxies {F} _.

(** [d[k]] on a dict kept in insertion order. *)
Fixpoint assoc_getitem {V} (d : list (string * V)) (k : string) : result V :=
  match d with
  | [] => Raise KeyError
  | (k', v) :: d => if decide (k' = k) then Ok v else assoc_getitem d k
  end.

(** The attributes of a constructed [Fisher] object. [num_galaxies] is
    that of [g_parameters]; [image_renderer_partials] is kept through its
    [get_image] only, which is a collaborator; [snrs] exists only when the
    constructor derived the noise variance for more than one galaxy. *)
Record Fisher (F : Type) (npix : nat) (galaxy renderer : Type) : Type := {
  g_parameters : GParameters F;
  snr : F;
  model : galaxy;
  image_renderer : renderer;
  image : list F;
  var_noise : F;
  snrs : option (list F);
  steps : gmap string F;
  param_names : list string;
  num_params : nat;
  derivatives_images : gmap string (vec F npix);
  second_derivatives_images : gmap (string * string) (vec F npix);
  fisher_matrix_images : gmap (string * string) (vec F npix);
  fisher_matrix : gmap (string * string) F;
  covariance_matrix : gmap (string * string) F;
  correlation_matrix : gmap (string * string) F;
  bias_matrix_images : gmap (string * string * string) (vec F npix);
  bias_matrix : gmap (string * string * string) F;
  bias_images : gmap string (vec F npix);
  biases : gmap string F;
  fisher_condition_number : F;
}.
Arguments g_parameters {F npix galaxy renderer} _.
Arguments snr {F npix galaxy renderer} _.
Arguments var_noise {F npix galaxy renderer} _.
Arguments snrs {F npix galaxy renderer} _.
Arguments steps {F npix galaxy renderer} _.
Arguments param_names {F npix galaxy renderer} _.
Arguments num_params {F npix galaxy renderer} _.
Arguments derivatives_images {F npix galaxy renderer} _.
Arguments second_derivatives_images {F npix galaxy renderer} _.
Arguments fisher_matrix_images {F npix galaxy renderer} _.
Arguments fisher_matrix {F npix galaxy renderer} _.
Arguments covariance_matrix {F npix galaxy renderer} _.
Arguments correlation_matrix {F npix galaxy renderer} _.
Arguments bias_matrix_images {F npix galaxy renderer} _.
Arguments bias_matrix {F npix galaxy renderer} _.
Arguments bias_images {F npix galaxy renderer} _.
Arguments biases {F npix galaxy renderer} _.
Arguments fisher_condition_number {F npix galaxy renderer} _.

(** The attributes the object exposes to its callers as results. *)
Record Outputs (F : Type) (npix : nat) : Type := {
  out_fisher_matrix : gmap (string * string) F;
  out_covariance_matrix : gmap (string * string) F;
  out_correlation_matrix : gmap (string * string) F;
  out_bias_matrix : gmap (string * string * string) F;
  out_bias_images : gmap string (vec F npix);
  out_biases : gmap string F;
  out_fisher_condition_number : F;
}.

Definition outputs {F npix galaxy renderer}
  (self : Fisher F npix galaxy renderer) : Outputs F npix := {|
  out_fisher_matrix := fisher_matrix self;
  out_covariance_matrix := covariance_matrix self;
  out_correlation_matrix := correlation_matrix self;
  out_bias_matrix := bias_matrix self;
  out_bias_images := bias_images self;
  out_biases := biases self;
  out_fisher_condition_number := fisher_condition_number self;
|}.

Section Construction.
Context {F : Type} `{Arith F} {npix : nat} {galaxy renderer : Type}.

(** Collaborators, each of which may raise:
    [gparameters.get_galaxies_models(g_parameters=...)],
    [gparameters.get_galaxies_models(params)],
    [gparameters.get_galaxy_model], [ImageRenderer.get_image] of the
    caller's renderer and of the renderer of the partials,
    [images.add_noise] (its third argument, the seed, may be left out),
    [defaults.get_steps], [numpy.linalg.inv], [numpy.linalg.cond]. *)
Variable get_galaxies_models_of : GParameters F → result galaxy.
Variable get_galaxies_models : gmap string F → result galaxy.
Variable get_galaxy_model : gmap string F → result galaxy.
Variable get_image : renderer → galaxy → result (list F).
Variable partials_get_image : renderer → galaxy → result (vec F npix).
Variable add_noise : list F → F → option Z → result (list F * F).
Variable get_steps : GParameters F → renderer → result (gmap string F).
Variable linalg_inv : list (list F) → result (list (list F)).
Variable linalg_cond : list (list F) → result F.

Definition get_covariance_matrix (param_names : list string)
  (fisher_matrix : gmap (string * string) F)
  : result (gmap (string * string) F) :=
  fisher_array ← matrix_to_numpy_array param_names fisher_matrix;
  covariance_array ← linalg_inv fisher_array;
  numpy_array_to_matrix param_names covariance_array.

Definition get_fisher_condition_number (param_names : list string)
  (fisher_matrix : gmap (string * string) F) : result F :=
  fisher_array ← matrix_to_numpy_array param_names fisher_matrix;
  linalg_cond fisher_array.

(** The part of the constructor that settles [self.var_noise] (and
    [self.snrs]). *)
Definition init_var_noise (g_parameters : GParameters F)
  (image_renderer : renderer) (image : list F) (snr : F)
  (var_noise : option F) : result (F * option (list F)) :=
  match var_noise with
  | None =>
      if decide (num_galaxies g_parameters = 1) then
        '(_, var_noise) ← add_noise image snr (Some 0%Z);
        Ok (var_noise, None)
      else
        params_galaxy1 ← assoc_getitem (id_params g_parameters) "1";
        model_galaxy1 ← get_galaxy_model params_galaxy1;
        image_galaxy1 ← get_image image_renderer model_galaxy1;
        '(_, var_noise) ← add_noise image_galaxy1 snr None;
        snrs ← for_each (tail (id_params g_parameters).*1) (λ id_gal snrs,
                  params_galaxy ← assoc_getitem (id_params g_parameters) id_gal;
                  model_galaxy ← get_galaxy_model params_galaxy;
                  image_galaxy ← get_image image_renderer model_galaxy;
                  Ok (snrs ++ [get_snr image_galaxy var_noise])) [snr];
        Ok (var_noise, Some snrs)
  | Some var_noise => Ok (var_noise, None)
  end.

(** [Fisher.__init__] *)
Definition __init__ (g_parameters : GParameters F) (image_renderer : renderer)
  (snr : F) (var_noise : option F) : result (Fisher F npix galaxy renderer) :=
  model ← get_galaxies_models_of g_parameters;
  image ← get_image image_renderer model;
  '(var_noise, snrs) ←
    init_var_noise g_parameters image_renderer image snr var_noise;
  steps ← get_steps g_parameters image_renderer;
  let param_names := ordered_fit_names g_parameters in
  let num_params := length param_names in
  derivatives_images ←
    get_derivative_images get_galaxies_models
      (partials_get_image image_renderer) param_names
      (params g_parameters) steps;
  second_derivatives_images ←
    get_second_derivatives_images get_galaxies_models
      (partials_get_image image_renderer) param_names
      (params g_parameters) steps;
  fisher_matrix_images ←
    get_fisher_matrix_images param_names var_noise derivatives_images;
  fisher_matrix ← get_fisher_matrix param_names fisher_matrix_images;
  covariance_matrix ← get_covariance_matrix param_names fisher_matrix;
  correlation_matrix ← get_correlation_matrix param_names covariance_matrix;
  bias_matrix_images ←
    get_bias_matrix_images param_names var_noise derivatives_images
      second_derivatives_images;
  bias_matrix ← get_bias_matrix param_names bias_matrix_images;
  bias_images ←
    get_bias_images param_names covariance_matrix bias_matrix_images;
  biases ← get_biases param_names bias_images;
  fisher_condition_number ←
    get_fisher_condition_number param_names fisher_matrix;
  Ok {|
    g_parameters := g_parameters;
    snr := snr;
    model := model;
    image_renderer := image_renderer;
    image := image;
    var_noise := var_noise;
    snrs := snrs;
    steps := steps;
    param_names := param_names;
    num_params := num_params;
    derivatives_images := derivatives_images;
    second_derivatives_images := second_derivatives_images;
    fisher_matrix_images := fisher_matrix_images;
    fisher_matrix := fisher_matrix;
    covariance_matrix := covariance_matrix;
    correlation_matrix := correlation_matrix;
    bias_matrix_images := bias_matrix_images;
    bias_matrix := bias_matrix;
    bias_images := bias_images;
    biases := biases;
    fisher_condition_number := fisher_condition_number;
  |}.
End Construction.

(** ** Logical vocabulary of the statements *)

Global Instance arith_inhabited `{Arith F} : Inhabited F := populate zero.

(** The terms of a list added one after the other, from zero: a sum in
    the order of the list. *)
Definition sum_list `{Arith F} (l : list F) : F := foldl add zero l.

(** A dict has an entry for every key of a list. *)
Definition populated `{Countable K} {V} (keys : list K) (d : gmap K V) : Prop :=
  Forall (λ k, is_Some (d !! k)) keys.

(** The dict [d'] has every key of the dict [d]. *)
Definition grows `{Countable K} {V} (d d' : gmap K V) : Prop :=
  ∀ k, is_Some (d !! k) → is_Some (d' !! k).

(** The dict a loop builds when it stores [g k] under every key [k] of
    [keys], in that order, starting from the dict [d]. *)
Definition tabulate `{Countable K} {V} (g : K → V) (keys : list K)
  (d : gmap K V) : gmap K V :=
  foldl (λ d k, <[k := g k]> d) d keys.

(** [array[i][j]] when both indices are in range. *)
Definition at2 {A} (array : list (list A)) (i j : nat) : option A :=
  array !! i ≫= (.!! j).

(** A dense array has [n] rows of [n] entries. *)
Definition square {A} (n : nat) (array : list (list A)) : Prop :=
  length array = n ∧ Forall (λ row, length row = n) array.

(** ** The formulas of the specification

    Each entry as the specification words it, to be compared with what the
    methods store. Missing dict entries read as the default value (zero,
    the zero image). *)

Section SpecFormulas.
Context {F : Type} `{Arith F} {npix : nat}.

(** [first_derivative_image[i] * first_derivative_image[j] / var_noise] *)
Definition fisher_image_spec (derivatives : gmap string (vec F npix))
  (var_noise : F) (k : string * string) : vec F npix :=
  img_div_scalar (img_mul (derivatives !!! k.1) (derivatives !!! k.2)) var_noise.

(** [first_derivative_image[i] * second_derivative_image[j,k] / var_noise] *)
Definition bias_matrix_image_spec (derivatives : gmap string (vec F npix))
  (seconds : gmap (string * string) (vec F npix)) (var_noise : F)
  (k : string * string * string) : vec F npix :=
  img_div_scalar
    (img_mul (derivatives !!! k.1.1) (seconds !!! (k.1.2, k.2))) var_noise.

(** One pixel of
    [-0.5 * Σ_{j,k,l} covariance[i,j] * covariance[k,l] * bias_matrix_image[j,k,l]],
    the triples [(j,k,l)] taken in the order of the ordering and the terms
    added one after the other, from zero. *)
Definition bias_pixel_spec (names : list string)
  (covariance : gmap (string * string) F)
  (bias_matrix_images : gmap (string * string * string) (vec F npix))
  (i : string) (p : fin npix) : F :=
  mul neg_half
    (foldl (λ acc '(j, k, l),
       add acc (mul (mul (covariance !!! (i, j)) (covariance !!! (k, l)))
                    ((bias_matrix_images !!! (j, k, l)) !!! p)))
       zero (triples names)).

(** [covariance[i,j] / (sqrt(covariance[i,i]) * sqrt(covariance[j,j]))],
    the square roots being those [math.sqrt] returns. *)
Definition correlation_spec (covariance : gmap (string * string) F)
  (sqrt_of : F → F) (k : string * string) : F :=
  div (covariance !!! k)
      (mul (sqrt_of (covariance !!! (k.1, k.1)))
           (sqrt_of (covariance !!! (k.2, k.2)))).
End SpecFormulas.

(** ** Rendering a parameter vector

    [get_image(get_galaxies_models(v))] with the renderer of the
    partials, and the perturbed vectors of the finite differences. *)

Section Rendering.
Context {F : Type} `{Arith F} {npix : nat} {galaxy : Type}.
Variable get_galaxies_models : gmap string F → result galaxy.
Variable partials_get_image : galaxy → result (vec F npix).

Definition render (v : gmap string F) : result (vec F npix) :=
  gal ← get_galaxies_models v; partials_get_image gal.

(** The vector [v] with its entry [k] replaced by [op v[k] steps[k]]
    ([op] is [add] for "up" and [sub] for "down"), every other entry
    kept. *)
Definition perturb (op : F → F → F) (steps v : gmap string F) (k : string)
  : gmap string F :=
  <[k := op (v !!! k) (steps !!! k)]> v.

(** The renderer succeeds on [v] and returns [R v]. *)
Definition renders (R : gmap string F → vec F npix) (v : gmap string F) : Prop :=
  render v = Ok (R v).

(** The centred first difference along [k]. *)
Definition first_difference_spec (R : gmap string F → vec F npix)
  (params steps : gmap string F) (k : string) : vec F npix :=
  img_div_scalar
    (img_sub (R (perturb add steps params k)) (R (perturb sub steps params k)))
    (mul two (steps !!! k)).

(** The four-corner mixed second difference along [k.1] and [k.2]. *)
Definition second_difference_spec (R : gmap string F → vec F npix)
  (params steps : gmap string F) (k : string * string) : vec F npix :=
  img_div_scalar
    (img_sub
       (img_sub
          (img_add (R (perturb add steps (perturb add steps params k.1) k.2))
                   (R (perturb sub steps (perturb sub steps params k.1) k.2)))
          (R (perturb add steps (perturb sub steps params k.1) k.2)))
       (R (perturb sub steps (perturb add steps params k.1) k.2)))
    (mul (mul four (steps !!! k.1)) (steps !!! k.2)).
End Rendering.

(** The image [get_bias_images] accumulates in [summation] for the
    target parameter [i]. *)
Definition bias_summation `{Arith F} {npix : nat} (names : list string)
  (covariance : gmap (string * string) F)
  (bias_matrix_images : gmap (string * string * string) (vec F npix))
  (i : string) : vec F npix :=
  foldl (λ summation '(j, k, l),
    img_add summation
      (img_scale (mul (covariance !!! (i, j)) (covariance !!! (k, l)))
                 (bias_matrix_images !!! (j, k, l))))
    img_zero (triples names).

Global Instance populated_dec `{Countable K} {V} (keys : list K)
  (d : gmap K V) : Decision (populated keys d) :=
  Forall_dec (λ k, is_Some (d !! k)) keys.

(** The first position of a name in the ordering (0 when it is absent). *)
Definition position (names : list string) (a : string) : nat :=
  match list_find (λ x, x = a) names with
  | Some (i, _) => i
  | None => 0
  end.

(** ** Concrete inputs, in binary64

    Two parameters and two pixels (nine pixels for the sums) for the
    methods; one parameter and one pixel for whole constructions;
    [numpy.linalg] on 1×1 and 2×2 arrays. *)

Module Sample.
Local Open Scope float_scope.

Definition names : list string := ["a"; "b"]%string.
Definition base : gmap string float := {["a"%string := 1; "b"%string := 2]}.
Definition step_sizes : gmap string float :=
  {["a"%string := 0.5; "b"%string := 0.25]}.

(** A galaxy model is the parameter vector itself; the rendered image has
    the pixels [a * b] and [a + b]. *)
Definition get_galaxies_models (v : gmap string float)
  : result (gmap string float) := Ok v.
Definition partials_get_image (gal : gmap string float)
  : result (vec float 2) :=
  x ← getitem gal "a"%string; y ← getitem gal "b"%string; Ok [# x * y; x + y].
Definition rendered (v : gmap string float) : vec float 2 :=
  [# (v !!! "a"%string) * (v !!! "b"%string);
     (v !!! "a"%string) + (v !!! "b"%string)].

Definition derivatives : gmap string (vec float 2) :=
  {["a"%string := [# 1; 2]; "b"%string := [# 3; 4]]}.
Definition seconds : gmap (string * string) (vec float 2) :=
  list_to_map ((λ k, (k, [# 0.5; -1])) <$> pairs names).
Definition covariance : gmap (string * string) float :=
  {[("a", "a")%string := 2; ("a", "b")%string := 0.5;
    ("b", "a")%string := 0.5; ("b", "b")%string := 4]}.
Definition dense : list (list float) := [[2; 0.5]; [0.5; 4]].


(** Derivative images of one pixel for two parameters: whatever their
    values, the Fisher matrix they give has proportional rows. In the
    second one the derivative of [a] is the zero image. *)
Definition proportional : gmap string (vec float 1) :=
  {["a"%string := [# 3]; "b"%string := [# 31]]}.
Definition vanishing : gmap string (vec float 1) :=
  {["a"%string := [# 0]; "b"%string := [# 31]]}.
(** The Fisher matrices they give under the noise variance 1. *)
Definition proportional_fisher : gmap (string * string) float :=
  {[("a", "a")%string := 9; ("a", "b")%string := 93;
    ("b", "a")%string := 93; ("b", "b")%string := 961]}.
Definition vanishing_fisher : gmap (string * string) float :=
  {[("a", "a")%string := 0; ("a", "b")%string := 0;
    ("b", "a")%string := 0; ("b", "b")%string := 961]}.

(** One parameter [a], one pixel. *)
Definition g_parameters : GParameters float := {|
  params := {["a"%string := 0]};
  id_params := [("1"%string, {["a"%string := 0]})];
  ordered_fit_names := ["a"%string];
  num_galaxies := 1;
|}.

Definition get_galaxies_models_of (g : GParameters float)
  : result (gmap string float) := Ok (params g).
Definition get_galaxy_model (v : gmap string float)
  : result (gmap string float) := Ok v.
(** The only pixel is the value of [a]. *)
Definition get_image (_ : unit) (gal : gmap string float)
  : result (list float) :=
  x ← getitem gal "a"%string; Ok [x].
Definition linear_image (_ : unit) (gal : gmap string float)
  : result (vec float 1) :=
  x ← getitem gal "a"%string; Ok [# x].
(** A renderer whose image does not depend on the parameters. *)
Definition flat_image (_ : unit) (gal : gmap string float)
  : result (vec float 1) := Ok [# 1].
(** A noise model that must not be called. *)
Definition add_noise (img : list float) (snr : float) (seed : option Z)
  : result (list float * float) := Raise ExternalError.
Definition get_steps (step : float) (g : GParameters float) (_ : unit)
  : result (gmap string float) := Ok {["a"%string := step]}.

(** The smallest positive normal number, LAPACK's safe minimum. *)
Definition sfmin : float := 0x1p-1022.

(** [numpy.linalg.inv] on a 1×1 or 2×2 array, as LAPACK's [gesv] solves
    [A X = I]. The factorisation takes as pivot of the first column the
    entry of larger magnitude (the first one on a tie), exchanging the
    rows when it is the second; the multiplier is the other entry times
    the reciprocal of the pivot (divided by the pivot when the pivot is
    below the safe minimum). A pivot that is exactly zero is "Singular
    matrix". The columns of the identity, its rows exchanged as those of
    the array were, are then solved by forward and back substitution.
    Every operation is rounded to binary64. Other shapes are not
    needed. *)
Definition linalg_inv (array : list (list float))
  : result (list (list float)) :=
  match array with
  | [[x]] => if PrimFloat.eqb x 0 then Raise LinAlgError else Ok [[1 / x]]
  | [[a; b]; [c; d]] =>
      let exchanged := PrimFloat.ltb (PrimFloat.abs a) (PrimFloat.abs c) in
      let '(u11, u12, c, d) :=
        if exchanged then (c, d, a, b) else (a, b, c, d) in
      if PrimFloat.eqb u11 0 then Raise LinAlgError else
      let l := if PrimFloat.leb sfmin (PrimFloat.abs u11)
               then c * (1 / u11) else c / u11 in
      let u22 := d - l * u12 in
      if PrimFloat.eqb u22 0 then Raise LinAlgError else
      let solve (b1 b2 : float) : float * float :=
        let y2 := b2 - l * b1 in
        let x2 := y2 / u22 in
        ((b1 - u12 * x2) / u11, x2) in
      let '(x11, x21) := if exchanged then solve 0 1 else solve 1 0 in
      let '(x12, x22) := if exchanged then solve 1 0 else solve 0 1 in
      Ok [[x11; x12]; [x21; x22]]
  | _ => Raise LinAlgError
  end.
(** [numpy.linalg.cond] on a 1×1 array: the ratio of the only singular
    value to itself, a NaN ratio being replaced by infinity; the singular
    value decomposition does not converge ([LinAlgError]) on an entry
    that is NaN or infinite. Other shapes are not needed. *)
Definition linalg_cond (array : list (list float)) : result float :=
  match array with
  | [[x]] =>
      if PrimFloat.is_nan x || PrimFloat.is_infinity x
      then Raise LinAlgError
      else
        let r := PrimFloat.abs x / PrimFloat.abs x in
        Ok (if PrimFloat.is_nan r then PrimFloat.infinity else r)
  | _ => Raise LinAlgError
  end.

(** [Fisher(g_parameters, image_renderer, snr, var_noise)] with the
    collaborators above, the renderer of the partials and the step being
    left open. *)
Definition construct
  (partials : unit → gmap string float → result (vec float 1))
  (step : float) (snr : float) (var_noise : option float)
  : result (Fisher float 1 (gmap string float) unit) :=
  __init__ get_galaxies_models_of get_galaxies_models get_galaxy_model
    get_image partials add_noise (get_steps step) linalg_inv linalg_cond
    g_parameters () snr var_noise.
End Sample.


(** ** Vocabulary of the further properties *)

(** The keys of the dict [d] are exactly the elements of [keys]. *)
Definition keys_exactly `{Countable K} {V} (keys : list K) (d : gmap K V)
  : Prop :=
  ∀ k, is_Some (d !! k) ↔ k ∈ keys.

(** The signal-to-noise ratio the constructor records for the galaxy
    [id]: [get_snr] of the image of that galaxy, under the variance [v]. *)
Definition recorded_snr `{Arith F} {galaxy renderer : Type}
  (get_galaxy_model : gmap string F → result galaxy)
  (get_image : renderer → galaxy → result (list F))
  (g : GParameters F) (r : renderer) (v : F) (id : string) (x : F) : Prop :=
  ∃ params_galaxy model_galaxy image_galaxy,
    assoc_getitem (id_params g) id = Ok params_galaxy ∧
    get_galaxy_model params_galaxy = Ok model_galaxy ∧
    get_image r model_galaxy = Ok image_galaxy ∧
    x = get_snr image_galaxy v.

(** ** More concrete inputs *)

Module Sample2.
Local Open Scope float_scope.

(** A named matrix with an entry under a key that is not a pair of the
    ordering [Sample.names]. *)
Definition with_other_key : gmap (string * string) float :=
  <[("z", "a")%string := 9]> Sample.covariance.

(** A 3×3 array, larger than the ordering of two names. *)
Definition dense3 : list (list float) :=
  [[2; 0.5; 7]; [0.5; 4; 8]; [5; 6; 9]].

(** An array whose second row is too short. *)
Definition ragged : list (list float) := [[2; 0.5]; [0.5]].

(** A covariance with a negative diagonal entry. *)
Definition negative_variance : gmap (string * string) float :=
  {[("a", "a")%string := -1]}.

(** Bias matrix images and bias images over [Sample.names]. *)
Definition bias_matrix_images : gmap (string * string * string) (vec float 2) :=
  list_to_map ((λ k, (k, [# 0.5; -1])) <$> triples Sample.names).
Definition bias_images : gmap string (vec float 2) :=
  {["a"%string := [# 1; 2]; "b"%string := [# 3; 4]]}.

(** Two galaxies, listed with the galaxy '2' first; a noise model that
    returns the image unchanged and the variance 4. *)
Definition two_galaxies : GParameters float := {|
  params := {["a"%string := 0]};
  id_params := [("2"%string, {["a"%string := 3]});
                ("1"%string, {["a"%string := 1]})];
  ordered_fit_names := ["a"%string];
  num_galaxies := 2;
|}.
Definition add_noise (img : list float) (snr : float) (seed : option Z)
  : result (list float * float) := Ok (img, 4).
End Sample2.

(** Concrete inputs over the reals: two derivative images of two pixels,
    the first one zero; one parameter [a] and a renderer of one pixel
    that is affine in it, with slope 3 and offset 1; two parameters and
    a renderer of one pixel that is their product. *)
Module SampleR.
Local Open Scope R_scope.

Definition names : list string := ["a"; "b"]%string.
Definition derivatives : gmap string (vec R 2) :=
  {["a"%string := vreplicate 2 0; "b"%string := [# 1; 2]]}.

Definition slope : vec R 1 := [# 3].
Definition offset : vec R 1 := [# 1].
Definition base : gmap string R := {["a"%string := 1]}.
Definition step_sizes : gmap string R := {["a"%string := / 2]}.
Definition get_galaxies_models (v : gmap string R)
  : result (gmap string R) := Ok v.
Definition partials_get_image (gal : gmap string R) : result (vec R 1) :=
  x ← getitem gal "a"%string; Ok (img_add (img_scale x slope) offset).
Definition rendered (v : gmap string R) : vec R 1 :=
  img_add (img_scale (v !!! "a"%string) slope) offset.

(** Two parameters [a] and [b], and a renderer of one pixel, their
    product. *)
Definition base2 : gmap string R := {["a"%string := 1; "b"%string := 2]}.
Definition step_sizes2 : gmap string R :=
  {["a"%string := / 2; "b"%string := / 4]}.
Definition product_image (gal : gmap string R) : result (vec R 1) :=
  x ← getitem gal "a"%string; y ← getitem gal "b"%string; Ok [# x * y].
Definition product (v : gmap string R) : vec R 1 :=
  [# (v !!! "a"%string) * (v !!! "b"%string)].
End SampleR.

(** * Facts *)

(** ** The error monad and the loops *)

Lemma bind_Ok {A B} (a : A) (f : A → result B) : Ok a ≫= f = f a.
Proof. reflexivity. Qed.

Lemma bind_ret_r {A} (m : result A) : m ≫= Ok = m.
Proof. by destruct m. Qed.

Lemma getitem_Some `{Countable K} {V} (d : gmap K V) k v :
  d !! k = Some v → getitem d k = Ok v.
Proof. unfold getitem. by intros ->. Qed.

Lemma getitem_total `{Countable K} `{Inhabited V} (d : gmap K V) k :
  is_Some (d !! k) → getitem d k = Ok (d !!! k).
Proof.
  intros [v Hv]. rewrite (getitem_Some _ _ _ Hv).
  by rewrite (lookup_total_correct _ _ _ Hv).
Qed.

Lemma index_Some {A} (l : list A) i x : l !! i = Some x → index l i = Ok x.
Proof. unfold index. by intros ->. Qed.

Section Loops.
Context {A St : Type}.
Implicit Types (l : list A) (body : A → St → result St) (s : St).

Lemma for_each_app l1 l2 body s :
  for_each (l1 ++ l2) body s = for_each l1 body s ≫= for_each l2 body.
Proof.
  revert s. induction l1 as [|x l1 IH]; intros s; simpl; [done|].
  destruct (body x s) as [s'|e]; simpl; [apply IH | done].
Qed.

Lemma for_each_bind {B} (l : list B) (f : B → list A) body s :
  for_each (l ≫= f) body s = for_each l (λ b, for_each (f b) body) s.
Proof.
  revert s. induction l as [|b l IH]; intros s; [done|].
  change ((b :: l) ≫= f) with (f b ++ (l ≫= f)).
  rewrite for_each_app. simpl.
  destruct (for_each (f b) body s) as [s'|e]; simpl; [apply IH | done].
Qed.

Lemma for_each_singleton x body s : for_each [x] body s = body x s.
Proof. simpl. apply bind_ret_r. Qed.

Lemma for_each_seq_names (names : list A)
    (body : nat → St → result St) (body' : A → St → result St) lo s :
  (∀ i a s, names !! i = Some a → body (lo + i) s = body' a s) →
  for_each (seq lo (length names)) body s = for_each names body' s.
Proof.
  revert lo s. induction names as [|a names IH]; intros lo s Hb; simpl; [done|].
  rewrite <-(Hb 0 a s eq_refl), Nat.add_0_r.
  destruct (body lo s) as [s'|e]; simpl; [|done].
  apply IH. intros i c t Hi. rewrite <-(Hb (S i) c t Hi). f_equal. lia.
Qed.

(** A loop over [range(len(names))] whose body uses its index only to
    read [names[i]] is a loop over the names. *)
Lemma for_each_range_names (names : list A)
    (body : nat → St → result St) (body' : A → St → result St) s :
  (∀ i a s, names !! i = Some a → body i s = body' a s) →
  for_each (range (length names)) body s = for_each names body' s.
Proof. intros Hb. by apply for_each_seq_names. Qed.

(** Loop invariants over a range of indices. *)
Lemma for_each_seq_inv (I : nat → St → Prop) (body : nat → St → result St) lo n s :
  I lo s →
  (∀ i s, lo ≤ i < lo + n → I i s → ∃ s', body i s = Ok s' ∧ I (S i) s') →
  ∃ s', for_each (seq lo n) body s = Ok s' ∧ I (lo + n) s'.
Proof.
  revert lo s. induction n as [|n IH]; intros lo s HI Hstep; simpl.
  - exists s. by rewrite Nat.add_0_r.
  - destruct (Hstep lo s) as (s' & -> & HI'); [lia | done |]. simpl.
    replace (lo + S n) with (S lo + n) by lia.
    apply IH; [done|]. intros i t Hi. apply Hstep. lia.
Qed.
End Loops.

(** ** Dicts filled by a loop *)

Section Tabulate.
Context `{Countable K} {V : Type}.
Implicit Types (g : K → V) (keys : list K) (d : gmap K V).

Lemma tabulate_cons g k keys d :
  tabulate g (k :: keys) d = tabulate g keys (<[k := g k]> d).
Proof. reflexivity. Qed.

Lemma lookup_tabulate g keys d k :
  tabulate g keys d !! k = if decide (k ∈ keys) then Some (g k) else d !! k.
Proof.
  revert d. induction keys as [|k' keys IH]; intros d.
  - rewrite decide_False by apply not_elem_of_nil. done.
  - rewrite tabulate_cons, IH. destruct (decide (k ∈ keys)) as [Hin|Hnin].
    + rewrite decide_True by (by right). done.
    + destruct (decide (k = k')) as [->|Hne].
      * rewrite decide_True by left. apply lookup_insert_eq.
      * rewrite decide_False by (rewrite elem_of_cons; tauto).
        by apply lookup_insert_ne.
Qed.

Lemma lookup_tabulate_elem g keys d k :
  k ∈ keys → tabulate g keys d !! k = Some (g k).
Proof. intros Hk. by rewrite lookup_tabulate, decide_True. Qed.

Lemma lookup_tabulate_not_elem g keys d k :
  k ∉ keys → tabulate g keys d !! k = d !! k.
Proof. intros Hk. by rewrite lookup_tabulate, decide_False. Qed.

Lemma populated_tabulate g keys d : populated keys (tabulate g keys d).
Proof.
  apply Forall_forall. intros k Hk. rewrite lookup_tabulate_elem by done. eauto.
Qed.

Lemma populated_elem keys d k : populated keys d → k ∈ keys → is_Some (d !! k).
Proof. unfold populated. rewrite Forall_forall. auto. Qed.

Lemma for_each_tabulate g keys (body : K → gmap K V → result (gmap K V)) d :
  (∀ k d, k ∈ keys → body k d = Ok (<[k := g k]> d)) →
  for_each keys body d = Ok (tabulate g keys d).
Proof.
  revert d. induction keys as [|k keys IH]; intros d Hb; [done|].
  rewrite tabulate_cons. cbn [for_each]. rewrite Hb by left. rewrite bind_Ok.
  apply IH. intros k' d' Hk'. apply Hb. by right.
Qed.
End Tabulate.

(** ** The index space of the nested loops *)

Lemma elem_of_pairs {A} (l : list A) a b : (a, b) ∈ pairs l ↔ a ∈ l ∧ b ∈ l.
Proof.
  unfold pairs. rewrite list_elem_of_bind. split.
  - intros (a' & Hab & Ha). apply list_elem_of_bind in Hab as (b' & Hab & Hb).
    apply list_elem_of_singleton in Hab. by simplify_eq.
  - intros [Ha Hb]. exists a. split; [|done].
    apply list_elem_of_bind. exists b. split; [|done]. by left.
Qed.

Lemma elem_of_triples {A} (l : list A) a b c :
  (a, b, c) ∈ triples l ↔ a ∈ l ∧ b ∈ l ∧ c ∈ l.
Proof.
  unfold triples. rewrite list_elem_of_bind. split.
  - intros (a' & Habc & Ha).
    apply list_elem_of_bind in Habc as (b' & Habc & Hb).
    apply list_elem_of_bind in Habc as (c' & Habc & Hc).
    apply list_elem_of_singleton in Habc. by simplify_eq.
  - intros (Ha & Hb & Hc). exists a. split; [|done].
    apply list_elem_of_bind. exists b. split; [|done].
    apply list_elem_of_bind. exists c. split; [|done]. by left.
Qed.

Section NestedLoops.
Context {A St : Type}.
Implicit Types (names : list A) (s : St).

(** Two nested loops over [range(len(names))] visit the pairs of names. *)
Lemma for_each_range2 names (body : nat → nat → St → result St)
    (body' : A * A → St → result St) s :
  (∀ i j a b s, names !! i = Some a → names !! j = Some b →
     body i j s = body' (a, b) s) →
  for_each (range (length names)) (λ i s,
    for_each (range (length names)) (λ j s, body i j s) s) s
  = for_each (pairs names) body' s.
Proof.
  intros Hb. unfold pairs. rewrite for_each_bind.
  apply for_each_range_names. intros i a s' Hi.
  rewrite for_each_bind. apply for_each_range_names. intros j b s'' Hj.
  rewrite for_each_singleton. by apply Hb.
Qed.

(** Three nested loops visit the triples of names. *)
Lemma for_each_range3 names (body : nat → nat → nat → St → result St)
    (body' : A * A * A → St → result St) s :
  (∀ i j k a b c s, names !! i = Some a → names !! j = Some b →
     names !! k = Some c → body i j k s = body' (a, b, c) s) →
  for_each (range (length names)) (λ i s,
    for_each (range (length names)) (λ j s,
      for_each (range (length names)) (λ k s, body i j k s) s) s) s
  = for_each (triples names) body' s.
Proof.
  intros Hb. unfold triples. rewrite for_each_bind.
  apply for_each_range_names. intros i a s1 Hi.
  rewrite for_each_bind. apply for_each_range_names. intros j b s2 Hj.
  rewrite for_each_bind. apply for_each_range_names. intros k c s3 Hk.
  rewrite for_each_singleton. by apply Hb.
Qed.
End NestedLoops.

(** ** Pixel images *)

Section ImageFacts.
Context {F : Type} `{Arith F} {npix : nat}.
Implicit Types (a b : vec F npix) (p : fin npix).

Lemma img_add_lookup a b p : img_add a b !!! p = add (a !!! p) (b !!! p).
Proof. apply vlookup_zip_with. Qed.
Lemma img_sub_lookup a b p : img_sub a b !!! p = sub (a !!! p) (b !!! p).
Proof. apply vlookup_zip_with. Qed.
Lemma img_mul_lookup a b p : img_mul a b !!! p = mul (a !!! p) (b !!! p).
Proof. apply vlookup_zip_with. Qed.
Lemma img_div_scalar_lookup a c p : img_div_scalar a c !!! p = div (a !!! p) c.
Proof. unfold img_div_scalar. by rewrite vlookup_map. Qed.
Lemma img_scale_lookup c a p : img_scale c a !!! p = mul c (a !!! p).
Proof. unfold img_scale. by rewrite vlookup_map. Qed.
Lemma img_zero_lookup p : (img_zero : vec F npix) !!! p = zero.
Proof. apply vlookup_replicate. Qed.


End ImageFacts.

(** ** What each method returns *)

Section NestedTabulate.
Context {A : Type} `{Countable A} {V : Type}.

Lemma for_each_range1_tabulate (names : list A)
    (body : nat → gmap A V → result (gmap A V)) (g : A → V) d :
  (∀ i a d, names !! i = Some a → body i d = Ok (<[a := g a]> d)) →
  for_each (range (length names)) body d = Ok (tabulate g names d).
Proof.
  intros Hb.
  rewrite (for_each_range_names names body (λ k d, Ok (<[k := g k]> d)))
    by done.
  by apply for_each_tabulate.
Qed.

Lemma for_each_range2_tabulate (names : list A)
    (body : nat → nat → gmap (A * A) V → result (gmap (A * A) V))
    (g : A * A → V) d :
  (∀ i j a b d, names !! i = Some a → names !! j = Some b →
     body i j d = Ok (<[(a, b) := g (a, b)]> d)) →
  for_each (range (length names)) (λ i d,
    for_each (range (length names)) (λ j d, body i j d) d) d
  = Ok (tabulate g (pairs names) d).
Proof.
  intros Hb.
  rewrite (for_each_range2 names body (λ k d, Ok (<[k := g k]> d))) by done.
  by apply for_each_tabulate.
Qed.

Lemma for_each_range3_tabulate (names : list A)
    (body : nat → nat → nat → gmap (A * A * A) V → result (gmap (A * A * A) V))
    (g : A * A * A → V) d :
  (∀ i j k a b c d, names !! i = Some a → names !! j = Some b →
     names !! k = Some c →
     body i j k d = Ok (<[(a, b, c) := g (a, b, c)]> d)) →
  for_each (range (length names)) (λ i d,
    for_each (range (length names)) (λ j d,
      for_each (range (length names)) (λ k d, body i j k d) d) d) d
  = Ok (tabulate g (triples names) d).
Proof.
  intros Hb.
  rewrite (for_each_range3 names body (λ k d, Ok (<[k := g k]> d))) by done.
  by apply for_each_tabulate.
Qed.
End NestedTabulate.

(** Reads the names at the indices of a loop body and the dict entries
    that are known to exist. *)
Ltac read_names :=
  repeat match goal with
  | Hi : ?names !! ?i = Some ?a |- context [index ?names ?i] =>
      rewrite (index_Some names i a Hi), bind_Ok
  end.

(** Closes [is_Some (d !! k)] from a hypothesis that [d] is populated. *)
Ltac solve_populated :=
  eapply populated_elem; [eassumption|];
  first
    [ apply elem_of_pairs; split; eauto using list_elem_of_lookup_2
    | apply elem_of_triples; (split; [|split]);
      eauto using list_elem_of_lookup_2
    | eauto using list_elem_of_lookup_2 ].

Section FisherAssembler.
Context {F : Type} `{Arith F} {npix : nat}.
Implicit Types (names : list string) (D : gmap string (vec F npix)).

Lemma get_fisher_matrix_images_eq names var D :
  populated names D →
  get_fisher_matrix_images names var D
  = Ok (tabulate (fisher_image_spec D var) (pairs names) ∅).
Proof.
  intros HD. unfold get_fisher_matrix_images.
  apply (for_each_range2_tabulate names). intros i j a b d Hi Hj. read_names.
  rewrite !getitem_total, !bind_Ok; [done|solve_populated..].
Qed.

Lemma get_fisher_matrix_eq names (FI : gmap (string * string) (vec F npix)) :
  populated (pairs names) FI →
  get_fisher_matrix names FI
  = Ok (tabulate (λ k, img_sum (FI !!! k)) (pairs names) ∅).
Proof.
  intros HFI. unfold get_fisher_matrix.
  apply (for_each_range2_tabulate names). intros i j a b d Hi Hj. read_names.
  rewrite getitem_total, bind_Ok; [done|solve_populated].
Qed.
End FisherAssembler.

Section Perturb.
Context {F : Type} `{Arith F}.
Implicit Types (steps v : gmap string F).

Lemma perturb_is_Some op steps v k k' :
  is_Some (v !! k') → is_Some (perturb op steps v k !! k').
Proof.
  intros Hv. unfold perturb. destruct (decide (k = k')) as [->|Hne].
  - rewrite lookup_insert_eq. eauto.
  - by rewrite lookup_insert_ne.
Qed.

Lemma perturb_lookup_eq op steps v k :
  perturb op steps v k !! k = Some (op (v !!! k) (steps !!! k)).
Proof. apply lookup_insert_eq. Qed.

Lemma perturb_lookup_ne op steps v k k' :
  k ≠ k' → perturb op steps v k !! k' = v !! k'.
Proof. apply lookup_insert_ne. Qed.

End Perturb.

Section DerivativeEngine.
Context {F : Type} `{Arith F} {npix : nat} {galaxy : Type}.
Variable get_galaxies_models : gmap string F → result galaxy.
Variable partials_get_image : galaxy → result (vec F npix).
Implicit Types (names : list string) (params steps : gmap string F).
Implicit Types (R : gmap string F → vec F npix).

Lemma renders_inv R v :
  renders get_galaxies_models partials_get_image R v →
  ∃ gal, get_galaxies_models v = Ok gal ∧ partials_get_image gal = Ok (R v).
Proof.
  unfold renders, render. destruct (get_galaxies_models v) as [gal|e]; [|done].
  rewrite bind_Ok. eauto.
Qed.

Lemma iadd_item_eq steps v k :
  is_Some (v !! k) → is_Some (steps !! k) →
  iadd_item v k (getitem steps k) = Ok (perturb add steps v k).
Proof.
  intros Hv Hs. unfold iadd_item. by rewrite !getitem_total, !bind_Ok.
Qed.

Lemma isub_item_eq steps v k :
  is_Some (v !! k) → is_Some (steps !! k) →
  isub_item v k (getitem steps k) = Ok (perturb sub steps v k).
Proof.
  intros Hv Hs. unfold isub_item. by rewrite !getitem_total, !bind_Ok.
Qed.

Lemma get_derivative_images_eq R names params steps :
  populated names params → populated names steps →
  Forall (λ k,
    renders get_galaxies_models partials_get_image R (perturb add steps params k) ∧
    renders get_galaxies_models partials_get_image R (perturb sub steps params k))
    names →
  get_derivative_images get_galaxies_models partials_get_image names params steps
  = Ok (tabulate (first_difference_spec R params steps) names ∅).
Proof.
  intros Hp Hs HR. unfold get_derivative_images.
  apply (for_each_range1_tabulate names). intros i a d Hi. read_names.
  assert (Ha : a ∈ names) by eauto using list_elem_of_lookup_2.
  pose proof (populated_elem _ _ _ Hp Ha) as Hpa.
  pose proof (populated_elem _ _ _ Hs Ha) as Hsa.
  rewrite Forall_forall in HR. destruct (HR a Ha) as [Hup Hdown].
  apply renders_inv in Hup as (gu & Hgu & Hiu).
  apply renders_inv in Hdown as (gd & Hgd & Hid).
  unfold deepcopy. rewrite iadd_item_eq, bind_Ok by done.
  rewrite isub_item_eq, bind_Ok by done.
  rewrite Hgu, bind_Ok, Hgd, bind_Ok, Hiu, bind_Ok, Hid, bind_Ok.
  by rewrite getitem_total, bind_Ok.
Qed.

Lemma get_second_derivatives_images_eq R names params steps :
  populated names params → populated names steps →
  Forall (λ k : string * string,
    renders get_galaxies_models partials_get_image R
      (perturb add steps (perturb add steps params k.1) k.2) ∧
    renders get_galaxies_models partials_get_image R
      (perturb add steps (perturb sub steps params k.1) k.2) ∧
    renders get_galaxies_models partials_get_image R
      (perturb sub steps (perturb add steps params k.1) k.2) ∧
    renders get_galaxies_models partials_get_image R
      (perturb sub steps (perturb sub steps params k.1) k.2))
    (pairs names) →
  get_second_derivatives_images get_galaxies_models partials_get_image
    names params steps
  = Ok (tabulate (second_difference_spec R params steps) (pairs names) ∅).
Proof.
  intros Hp Hs HR. unfold get_second_derivatives_images.
  apply (for_each_range2_tabulate names). intros i j a b d Hi Hj. read_names.
  assert (Ha : a ∈ names) by eauto using list_elem_of_lookup_2.
  assert (Hb : b ∈ names) by eauto using list_elem_of_lookup_2.
  pose proof (populated_elem _ _ _ Hp Ha) as Hpa.
  pose proof (populated_elem _ _ _ Hs Ha) as Hsa.
  pose proof (populated_elem _ _ _ Hp Hb) as Hpb.
  pose proof (populated_elem _ _ _ Hs Hb) as Hsb.
  rewrite Forall_forall in HR.
  destruct (HR (a, b)) as (Hpp & Hmp & Hpm & Hmm); [by apply elem_of_pairs|].
  simpl in Hpp, Hmp, Hpm, Hmm.
  apply renders_inv in Hpp as (gpp & Hgpp & Hipp).
  apply renders_inv in Hmp as (gmp & Hgmp & Himp).
  apply renders_inv in Hpm as (gpm & Hgpm & Hipm).
  apply renders_inv in Hmm as (gmm & Hgmm & Himm).
  unfold deepcopy.
  repeat first
    [ rewrite bind_Ok
    | rewrite iadd_item_eq by auto using perturb_is_Some
    | rewrite isub_item_eq by auto using perturb_is_Some ].
  rewrite Hgpp, bind_Ok, Hgmp, bind_Ok, Hgpm, bind_Ok, Hgmm, bind_Ok.
  rewrite Hipp, bind_Ok, Himp, bind_Ok, Hipm, bind_Ok, Himm, bind_Ok.
  by rewrite !getitem_total, !bind_Ok.
Qed.
End DerivativeEngine.

Lemma for_each_foldl {A St} (l : list A) (body : A → St → result St)
    (f : St → A → St) s :
  (∀ x s, x ∈ l → body x s = Ok (f s x)) →
  for_each l body s = Ok (foldl f s l).
Proof.
  revert s. induction l as [|x l IH]; intros s Hb; [done|].
  cbn [for_each foldl]. rewrite Hb by left. rewrite bind_Ok.
  apply IH. intros y t Hy. apply Hb. by right.
Qed.

Section BiasEngine.
Context {F : Type} `{Arith F} {npix : nat}.
Implicit Types (names : list string) (D : gmap string (vec F npix)).
Implicit Types (SD : gmap (string * string) (vec F npix)).
Implicit Types (B : gmap (string * string * string) (vec F npix)).
Implicit Types (cov : gmap (string * string) F).

Lemma get_bias_matrix_images_eq names var D SD :
  populated names D → populated (pairs names) SD →
  get_bias_matrix_images names var D SD
  = Ok (tabulate (bias_matrix_image_spec D SD var) (triples names) ∅).
Proof.
  intros HD HS. unfold get_bias_matrix_images.
  apply (for_each_range3_tabulate names). intros i j k a b c d Hi Hj Hk.
  read_names.
  rewrite !getitem_total, !bind_Ok; [done|solve_populated..].
Qed.


Lemma get_bias_images_eq names cov B :
  populated (pairs names) cov → populated (triples names) B →
  get_bias_images names cov B
  = Ok (tabulate (λ i, img_scale neg_half (bias_summation names cov B i))
          names ∅).
Proof.
  intros Hcov HB. unfold get_bias_images.
  apply (for_each_range1_tabulate names). intros i a d Hi.
  assert (Ha : a ∈ names) by eauto using list_elem_of_lookup_2.
  rewrite (for_each_range3 names _
    (λ '(j, k, l) summation,
       Ok (img_add summation
             (img_scale (mul (cov !!! (a, j)) (cov !!! (k, l)))
                        (B !!! (j, k, l)))))).
  - rewrite (for_each_foldl _ _
      (λ summation '(j, k, l),
         img_add summation
           (img_scale (mul (cov !!! (a, j)) (cov !!! (k, l)))
                      (B !!! (j, k, l))))).
    + rewrite bind_Ok. read_names. done.
    + by intros [[j k] l] s _.
  - intros j k l b c e s Hj Hk Hl. read_names.
    rewrite !getitem_total, !bind_Ok; [done|solve_populated..].
Qed.


(** The accumulated image, read at one pixel. *)
Lemma bias_foldl_lookup cov B i (ts : list (string * string * string))
    (acc : vec F npix) p :
  foldl (λ summation '(j, k, l),
    img_add summation
      (img_scale (mul (cov !!! (i, j)) (cov !!! (k, l))) (B !!! (j, k, l))))
    acc ts !!! p
  = foldl (λ s '(j, k, l),
      add s (mul (mul (cov !!! (i, j)) (cov !!! (k, l)))
                 ((B !!! (j, k, l)) !!! p)))
      (acc !!! p) ts.
Proof.
  revert acc. induction ts as [|[[j k] l] ts IH]; intros acc; [done|].
  cbn [foldl]. rewrite IH. by rewrite img_add_lookup, img_scale_lookup.
Qed.

Lemma bias_summation_lookup names cov B i p :
  img_scale neg_half (bias_summation names cov B i) !!! p
  = bias_pixel_spec names cov B i p.
Proof.
  rewrite img_scale_lookup. unfold bias_pixel_spec, bias_summation.
  by rewrite bias_foldl_lookup, img_zero_lookup.
Qed.
End BiasEngine.

Section LinearSolver.
Context {F : Type} `{Arith F}.
Implicit Types (names : list string) (cov : gmap (string * string) F).

Lemma get_correlation_matrix_eq names cov (sqrt_of : F → F) :
  populated (pairs names) cov →
  Forall (λ a, math_sqrt (cov !!! (a, a)) = Ok (sqrt_of (cov !!! (a, a))))
    names →
  get_correlation_matrix names cov
  = Ok (tabulate (correlation_spec cov sqrt_of) (pairs names) ∅).
Proof.
  intros Hcov Hsqrt. unfold get_correlation_matrix.
  apply (for_each_range2_tabulate names). intros i j a b d Hi Hj. read_names.
  rewrite Forall_forall in Hsqrt.
  rewrite !getitem_total, !bind_Ok by solve_populated.
  rewrite !Hsqrt, !bind_Ok by eauto using list_elem_of_lookup_2.
  done.
Qed.
End LinearSolver.

(** ** Dense arrays *)

Section Dense.
Context {A : Type}.
Implicit Types (array : list (list A)) (row : list A).

Lemma at2_Some array i j x :
  at2 array i j = Some x ↔ ∃ row, array !! i = Some row ∧ row !! j = Some x.
Proof.
  unfold at2. destruct (array !! i) as [row|]; simpl.
  - split; [eauto|]. by intros (row' & [= <-] & ?).
  - split; [done|]. by intros (row' & [=] & ?).
Qed.

Lemma square_lookup n array i row :
  square n array → array !! i = Some row → length row = n.
Proof.
  intros [_ Hrows] Hi. rewrite Forall_forall in Hrows.
  eauto using list_elem_of_lookup_2.
Qed.

Lemma square_at2 n array i j :
  square n array → i < n → j < n → is_Some (at2 array i j).
Proof.
  intros Hsq Hi Hj. destruct (lookup_lt_is_Some_2 array i) as [row Hrow].
  { destruct Hsq as [-> _]. done. }
  destruct (lookup_lt_is_Some_2 row j) as [x Hx].
  { by rewrite (square_lookup _ _ _ _ Hsq Hrow). }
  exists x. apply at2_Some. eauto.
Qed.

Lemma square_ext n array1 array2 :
  square n array1 → square n array2 →
  (∀ i j, i < n → j < n → at2 array1 i j = at2 array2 i j) →
  array1 = array2.
Proof.
  intros Hsq1 Hsq2 Heq. apply list_eq. intros i.
  destruct (decide (i < n)) as [Hi|Hi].
  - destruct (lookup_lt_is_Some_2 array1 i) as [row1 Hrow1].
    { by destruct Hsq1 as [-> _]. }
    destruct (lookup_lt_is_Some_2 array2 i) as [row2 Hrow2].
    { by destruct Hsq2 as [-> _]. }
    rewrite Hrow1, Hrow2. f_equal. apply list_eq. intros j.
    destruct (decide (j < n)) as [Hj|Hj].
    + specialize (Heq i j Hi Hj). unfold at2 in Heq.
      by rewrite Hrow1, Hrow2 in Heq.
    + rewrite !lookup_ge_None_2; [done|..].
      * rewrite (square_lookup _ _ _ _ Hsq2 Hrow2). lia.
      * rewrite (square_lookup _ _ _ _ Hsq1 Hrow1). lia.
  - rewrite !lookup_ge_None_2; [done|..].
    + destruct Hsq2 as [-> _]. lia.
    + destruct Hsq1 as [-> _]. lia.
Qed.

Lemma square_replicate n (x : A) : square n (replicate n (replicate n x)).
Proof.
  split; [apply length_replicate|].
  apply Forall_replicate. apply length_replicate.
Qed.
End Dense.

Section LabelingFacts.
Context {F : Type} `{Arith F}.
Implicit Types (names : list string) (M : gmap (string * string) F).
Implicit Types (array : list (list F)).

Lemma setitem2_spec n array i j e :
  square n array → i < n → j < n →
  ∃ array', setitem2 array i j e = Ok array' ∧ square n array' ∧
    ∀ i' j', at2 array' i' j'
             = if decide (i' = i ∧ j' = j) then Some e else at2 array i' j'.
Proof.
  intros Hsq Hi Hj. unfold setitem2.
  destruct (lookup_lt_is_Some_2 array i) as [row Hrow].
  { by destruct Hsq as [-> _]. }
  pose proof (square_lookup _ _ _ _ Hsq Hrow) as Hlen.
  rewrite (index_Some _ _ _ Hrow), bind_Ok.
  rewrite decide_True by lia.
  eexists. split; [done|]. split.
  - destruct Hsq as [Hl Hrows]. split; [by rewrite length_insert|].
    apply Forall_insert; [done|]. by rewrite length_insert.
  - intros i' j'. unfold at2. destruct (decide (i' = i)) as [->|Hne].
    + rewrite list_lookup_insert_eq by (by destruct Hsq as [-> _]).
      rewrite Hrow. simpl. destruct (decide (j' = j)) as [->|Hne'].
      * rewrite decide_True by done. apply list_lookup_insert_eq. lia.
      * rewrite decide_False by tauto. by apply list_lookup_insert_ne.
    + rewrite decide_False by tauto. by rewrite list_lookup_insert_ne.
Qed.

Lemma matrix_to_numpy_array_spec names M :
  populated (pairs names) M →
  ∃ array, matrix_to_numpy_array names M = Ok array ∧
    square (length names) array ∧
    ∀ i j a b, names !! i = Some a → names !! j = Some b →
      at2 array i j = Some (M !!! (a, b)).
Proof.
  intros HM. unfold matrix_to_numpy_array, range.
  set (n := length names).
  set (Inv := λ (i j : nat) (array : list (list F)),
    square n array ∧
    ∀ i' j' a b, i' < i ∨ (i' = i ∧ j' < j) →
      names !! i' = Some a → names !! j' = Some b →
      at2 array i' j' = Some (M !!! (a, b))).
  destruct (for_each_seq_inv (λ i, Inv i 0)
    (λ i array, for_each (seq 0 n) (λ j array,
       param_i ← index names i; param_j ← index names j;
       element ← getitem M (param_i, param_j);
       setitem2 array i j element) array)
    0 n (replicate n (replicate n zero))) as (array & Harr & Hsq & Hent).
  - split; [apply square_replicate|]. intros i' j' a b Hlt. lia.
  - intros i array [_ Hi] HI.
    destruct (for_each_seq_inv (Inv i)
      (λ j array, param_i ← index names i; param_j ← index names j;
         element ← getitem M (param_i, param_j);
         setitem2 array i j element) 0 n array) as (array' & Harr & Hsq & Hent).
    + done.
    + intros j arr [_ Hj] [Hsq Hent].
      destruct (lookup_lt_is_Some_2 names i) as [a Ha]; [done|].
      destruct (lookup_lt_is_Some_2 names j) as [b Hb]; [done|].
      read_names. rewrite getitem_total, bind_Ok by solve_populated.
      destruct (setitem2_spec n arr i j (M !!! (a, b)))
        as (arr' & -> & Hsq' & Hat); [done..|].
      exists arr'. split; [done|]. split; [done|].
      intros i' j' a' b' Hlt Ha' Hb'. rewrite Hat.
      case_decide as Hij.
      * destruct Hij as [-> ->]. by simplify_eq.
      * apply Hent; [|done..]. lia.
    + exists array'. split; [done|]. split; [done|].
      intros i' j' a b Hlt Ha Hb. apply Hent; [|done..].
      apply lookup_lt_Some in Hb. fold n in Hb. lia.
  - exists array. split; [done|]. split; [done|].
    intros i j a b Ha Hb. apply Hent; [|done..].
    apply lookup_lt_Some in Ha. fold n in Ha. lia.
Qed.

Lemma numpy_array_to_matrix_eq names array (g : string * string → F) :
  (∀ i j a b, names !! i = Some a → names !! j = Some b →
     at2 array i j = Some (g (a, b))) →
  numpy_array_to_matrix names array = Ok (tabulate g (pairs names) ∅).
Proof.
  intros Hg. unfold numpy_array_to_matrix.
  apply (for_each_range2_tabulate names). intros i j a b d Hi Hj. read_names.
  destruct (proj1 (at2_Some _ _ _ _) (Hg i j a b Hi Hj)) as (row & Hrow & Hx).
  by rewrite (index_Some _ _ _ Hrow), bind_Ok, (index_Some _ _ _ Hx), bind_Ok.
Qed.
End LabelingFacts.

Lemma position_lookup (names : list string) i a :
  NoDup names → names !! i = Some a → position names a = i.
Proof.
  intros Hnd Hi. unfold position.
  destruct (list_find (λ x, x = a) names) as [[i' x]|] eqn:Hfind.
  - apply list_find_Some in Hfind as (Hi' & -> & _).
    by apply (NoDup_lookup names i' i a).
  - apply list_find_None in Hfind. rewrite Forall_forall in Hfind.
    destruct (Hfind a); eauto using list_elem_of_lookup_2.
Qed.

(** * The claims *)

Section Claims.
Context {F : Type} `{Arith F} {npix : nat}.
Implicit Types (names : list string) (p : fin npix).


(** C2. Given a covariance entry for every ordered pair, and derivative
    and second-derivative images for every name and pair,
    [get_bias_matrix_images] and [get_bias_images] return; the bias
    matrix image of (j,k,l) is [D[j] * S[k,l] / var_noise], and for every
    parameter i every pixel of the bias image of i is -0.5 times the sum,
    over all ordered triples (j,k,l) of names, of
    [covariance[i,j] * covariance[k,l] * bias_matrix_image[j,k,l]] at
    that pixel, with i fixed. *)
Theorem bias_images_contraction names (var_noise : F)
    (D : gmap string (vec F npix)) (SD : gmap (string * string) (vec F npix))
    (cov : gmap (string * string) F) :
  populated names D → populated (pairs names) SD →
  populated (pairs names) cov →
  ∃ B BI,
    get_bias_matrix_images names var_noise D SD = Ok B ∧
    get_bias_images names cov B = Ok BI ∧
    (∀ j k l, j ∈ names → k ∈ names → l ∈ names →
       B !! (j, k, l)
         = Some (img_div_scalar (img_mul (D !!! j) (SD !!! (k, l))) var_noise)) ∧
    ∀ i, i ∈ names →
      ∃ img, BI !! i = Some img ∧
        ∀ p, img !!! p
             = mul neg_half
                 (foldl (λ acc '(j, k, l),
                    add acc (mul (mul (cov !!! (i, j)) (cov !!! (k, l)))
                                 ((B !!! (j, k, l)) !!! p)))
                    zero (triples names)).
Proof.
  intros HD HSD Hcov.
  eexists _, _. split; [by apply get_bias_matrix_images_eq|].
  split; [apply get_bias_images_eq; [done|apply populated_tabulate]|].
  split.
  - intros j k l Hj Hk Hl. rewrite lookup_tabulate_elem; [done|].
    by apply elem_of_triples.
  - intros i Hi. eexists. split; [by rewrite lookup_tabulate_elem|].
    intros p. apply bias_summation_lookup.
Qed.

(** C8. A named matrix with an entry for every ordered pair of names,
    and no other entry, converts to a dense array that converts back to
    the same named matrix; and when the names of the ordering are
    distinct, a dense P×P array converts to a named matrix that converts
    back to the same array. *)
Theorem labeling_round_trip names :
  (∀ M : gmap (string * string) F,
     populated (pairs names) M →
     (∀ k, is_Some (M !! k) → k ∈ pairs names) →
     ∃ array, matrix_to_numpy_array names M = Ok array ∧
              numpy_array_to_matrix names array = Ok M) ∧
  (NoDup names →
   ∀ array : list (list F), square (length names) array →
     ∃ M, numpy_array_to_matrix names array = Ok M ∧
          matrix_to_numpy_array names M = Ok array).
Proof.
  split.
  - intros M HM Hdom.
    destruct (matrix_to_numpy_array_spec names M HM) as (array & Harr & _ & Hent).
    exists array. split; [done|].
    rewrite (numpy_array_to_matrix_eq names array (λ k, M !!! k)) by done.
    f_equal. apply map_eq. intros k. rewrite lookup_tabulate.
    case_decide as Hk.
    + destruct (populated_elem _ _ _ HM Hk) as [x Hx].
      by rewrite Hx, (lookup_total_correct _ _ _ Hx).
    + rewrite lookup_empty. symmetry. apply eq_None_not_Some. auto.
  - intros Hnd array Hsq.
    set (g := λ k : string * string,
      default zero (at2 array (position names k.1) (position names k.2))).
    assert (Hg : ∀ i j a b, names !! i = Some a → names !! j = Some b →
                 at2 array i j = Some (g (a, b))).
    { intros i j a b Hi Hj. unfold g. simpl.
      rewrite (position_lookup names i a), (position_lookup names j b) by done.
      destruct (square_at2 _ array i j Hsq) as [x ->];
        eauto using lookup_lt_Some. }
    exists (tabulate g (pairs names) ∅).
    split; [by apply numpy_array_to_matrix_eq|].
    destruct (matrix_to_numpy_array_spec names (tabulate g (pairs names) ∅))
      as (array' & -> & Hsq' & Hent); [apply populated_tabulate|].
    f_equal. apply (square_ext (length names)); [done..|].
    intros i j Hi Hj.
    destruct (lookup_lt_is_Some_2 names i Hi) as [a Ha].
    destruct (lookup_lt_is_Some_2 names j Hj) as [b Hb].
    rewrite (Hent i j a b Ha Hb), (Hg i j a b Ha Hb). f_equal.
    apply lookup_total_correct, lookup_tabulate_elem.
    apply elem_of_pairs; eauto using list_elem_of_lookup_2.
Qed.
End Claims.

Section DerivativeClaims.
Context {F : Type} `{Arith F} {npix : nat} {galaxy : Type}.
Variable get_galaxies_models : gmap string F → result galaxy.
Variable partials_get_image : galaxy → result (vec F npix).
Implicit Types (names : list string) (params steps : gmap string F).

(** C4. When every parameter has a value and a step, and the renderer
    returns an image [R v] on each perturbed vector [v],
    [get_derivative_images] returns, and for every parameter p the image
    stored under p is the rendering of the vector with p increased by
    step[p], minus the rendering of the vector with p decreased by
    step[p], divided by 2 * step[p], pixel by pixel; each perturbed
    vector is the base vector with only the entry of p changed. *)
Theorem derivative_images_centered_difference
    (R : gmap string F → vec F npix) names params steps :
  populated names params → populated names steps →
  Forall (λ k,
    renders get_galaxies_models partials_get_image R (perturb add steps params k) ∧
    renders get_galaxies_models partials_get_image R (perturb sub steps params k))
    names →
  ∃ D,
    get_derivative_images get_galaxies_models partials_get_image
      names params steps = Ok D ∧
    ∀ k, k ∈ names →
      ∃ params_up params_down,
        params_up !! k = Some (add (params !!! k) (steps !!! k)) ∧
        params_down !! k = Some (sub (params !!! k) (steps !!! k)) ∧
        (∀ q, q ≠ k →
           params_up !! q = params !! q ∧ params_down !! q = params !! q) ∧
        D !! k = Some (img_div_scalar (img_sub (R params_up) (R params_down))
                         (mul two (steps !!! k))) ∧
        ∀ p, (D !!! k) !!! p
             = div (sub (R params_up !!! p) (R params_down !!! p))
                   (mul two (steps !!! k)).
Proof.
  intros Hp Hs HR. eexists. split; [by apply get_derivative_images_eq|].
  intros k Hk.
  exists (perturb add steps params k), (perturb sub steps params k).
  split; [apply perturb_lookup_eq|]. split; [apply perturb_lookup_eq|].
  split; [intros q Hq; split; by apply perturb_lookup_ne|].
  assert (Hlook : tabulate (first_difference_spec R params steps) names ∅ !! k
                  = Some (first_difference_spec R params steps k))
    by by rewrite lookup_tabulate_elem.
  split; [exact Hlook|]. intros p.
  rewrite (lookup_total_correct _ _ _ Hlook). unfold first_difference_spec.
  by rewrite img_div_scalar_lookup, img_sub_lookup.
Qed.

(** C3. When every parameter has a value and a step, and the renderer
    returns an image [R v] on each corner vector [v],
    [get_second_derivatives_images] returns, and for every ordered pair
    (i,j), i = j included, the image stored under (i,j) is: the rendering
    with i up and j up, plus the rendering with i down and j down, minus
    the rendering with i down and j up, minus the rendering with i up and
    j down, divided by 4 * step[i] * step[j], pixel by pixel. Each corner is the base
    vector perturbed along i, then along j; for i = j the up-up corner
    holds the base value with the step added twice and the down-down
    corner the base value with the step subtracted twice. *)
Theorem second_derivative_images_four_corners
    (R : gmap string F → vec F npix) names params steps :
  populated names params → populated names steps →
  Forall (λ k : string * string,
    renders get_galaxies_models partials_get_image R
      (perturb add steps (perturb add steps params k.1) k.2) ∧
    renders get_galaxies_models partials_get_image R
      (perturb add steps (perturb sub steps params k.1) k.2) ∧
    renders get_galaxies_models partials_get_image R
      (perturb sub steps (perturb add steps params k.1) k.2) ∧
    renders get_galaxies_models partials_get_image R
      (perturb sub steps (perturb sub steps params k.1) k.2))
    (pairs names) →
  ∃ SD,
    get_second_derivatives_images get_galaxies_models partials_get_image
      names params steps = Ok SD ∧
    ∀ i j, i ∈ names → j ∈ names →
      let iup_jup := perturb add steps (perturb add steps params i) j in
      let idown_jup := perturb add steps (perturb sub steps params i) j in
      let iup_jdown := perturb sub steps (perturb add steps params i) j in
      let idown_jdown := perturb sub steps (perturb sub steps params i) j in
      SD !! (i, j)
        = Some (img_div_scalar
                  (img_sub (img_sub (img_add (R iup_jup) (R idown_jdown))
                                    (R idown_jup)) (R iup_jdown))
                  (mul (mul four (steps !!! i)) (steps !!! j))) ∧
      (∀ p, (SD !!! (i, j)) !!! p
            = div (sub (sub (add (R iup_jup !!! p) (R idown_jdown !!! p))
                            (R idown_jup !!! p)) (R iup_jdown !!! p))
                  (mul (mul four (steps !!! i)) (steps !!! j))) ∧
      (i = j →
         iup_jup !! i
           = Some (add (add (params !!! i) (steps !!! i)) (steps !!! i)) ∧
         idown_jdown !! i
           = Some (sub (sub (params !!! i) (steps !!! i)) (steps !!! i))) ∧
      (i ≠ j →
         iup_jup !! i = Some (add (params !!! i) (steps !!! i)) ∧
         iup_jup !! j = Some (add (params !!! j) (steps !!! j)) ∧
         idown_jdown !! i = Some (sub (params !!! i) (steps !!! i)) ∧
         idown_jdown !! j = Some (sub (params !!! j) (steps !!! j)) ∧
         idown_jup !! i = Some (sub (params !!! i) (steps !!! i)) ∧
         idown_jup !! j = Some (add (params !!! j) (steps !!! j)) ∧
         iup_jdown !! i = Some (add (params !!! i) (steps !!! i)) ∧
         iup_jdown !! j = Some (sub (params !!! j) (steps !!! j))).
Proof.
  intros Hp Hs HR. eexists.
  split; [by apply get_second_derivatives_images_eq|].
  intros i j Hi Hj. cbv zeta.
  assert (Hlook : tabulate (second_difference_spec R params steps)
                    (pairs names) ∅ !! (i, j)
                  = Some (second_difference_spec R params steps (i, j))).
  { rewrite lookup_tabulate_elem; [done|]. by apply elem_of_pairs. }
  split; [exact Hlook|]. split; [|split].
  - intros p. rewrite (lookup_total_correct _ _ _ Hlook).
    unfold second_difference_spec. cbn [fst snd].
    by rewrite img_div_scalar_lookup, !img_sub_lookup, img_add_lookup.
  - intros <-. unfold perturb.
    by rewrite !lookup_insert_eq, !lookup_total_insert_eq.
  - intros Hne. unfold perturb.
    rewrite !lookup_insert_eq.
    rewrite !(lookup_insert_ne _ j i), !lookup_insert_eq by done.
    rewrite !(lookup_total_insert_ne _ i j) by done. done.
Qed.
End DerivativeClaims.

Lemma for_each_Raise {A St} (l : list A) (body : A → St → result St) s e :
  for_each l body s = Raise e → ∃ x s', x ∈ l ∧ body x s' = Raise e.
Proof.
  revert s. induction l as [|x l IH]; intros s Hl; [done|].
  cbn [for_each] in Hl. destruct (body x s) as [s'|e'] eqn:Hx.
  - rewrite bind_Ok in Hl. destruct (IH _ Hl) as (y & t & Hy & Ht).
    exists y, t. split; [by right | done].
  - simpl in Hl. injection Hl as ->. exists x, s. split; [left | done].
Qed.

Lemma getitem_Raise `{Countable K} {V} (d : gmap K V) k e :
  getitem d k = Raise e → d !! k = None ∧ e = KeyError.
Proof. unfold getitem. destruct (d !! k); [done|]. by intros [= <-]. Qed.

Section StepPolicy.
Context {F : Type} `{Arith F} {npix : nat} {galaxy : Type}.
Variable get_galaxies_models : gmap string F → result galaxy.
Variable partials_get_image : galaxy → result (vec F npix).
Implicit Types (names : list string) (params steps : gmap string F).

(** C7, as the code has it. [get_derivative_images] looks at no step:
    whatever the steps are (zero and negative ones included), when every
    parameter has a value and a step and the renderer returns on the
    perturbed vectors it returns the centred differences taken with the
    steps as they are; and when it raises, a parameter of the ordering
    lacks a value or a step (KeyError), or a collaborator raised on one
    of the perturbed vectors. *)
Theorem derivative_images_accept_any_step
    (R : gmap string F → vec F npix) names params steps :
  (populated names params → populated names steps →
   Forall (λ k,
     renders get_galaxies_models partials_get_image R (perturb add steps params k) ∧
     renders get_galaxies_models partials_get_image R (perturb sub steps params k))
     names →
   get_derivative_images get_galaxies_models partials_get_image
     names params steps
   = Ok (tabulate (first_difference_spec R params steps) names ∅)) ∧
  (∀ e,
   get_derivative_images get_galaxies_models partials_get_image
     names params steps = Raise e →
   ∃ k, k ∈ names ∧
     ((e = KeyError ∧ (params !! k = None ∨ steps !! k = None)) ∨
      ∃ v, (v = perturb add steps params k ∨ v = perturb sub steps params k) ∧
           render get_galaxies_models partials_get_image v = Raise e)).
Proof.
  split; [apply get_derivative_images_eq|].
  intros e He. unfold get_derivative_images in He.
  apply for_each_Raise in He as (i & d & Hi & He).
  apply list_elem_of_lookup in Hi as [n Hn].
  apply lookup_seq in Hn as [Hi Hn]. simpl in Hi. subst i.
  destruct (lookup_lt_is_Some_2 names n Hn) as [k Hk].
  exists k. split; [eauto using list_elem_of_lookup_2|].
  rewrite (index_Some _ _ _ Hk), bind_Ok in He.
  unfold deepcopy, iadd_item, isub_item in He.
  destruct (getitem params k) as [x|e1] eqn:Hx;
    [|apply getitem_Raise in Hx as [Hx ->]; injection He as <-; auto].
  destruct (getitem steps k) as [s|e1] eqn:Hs;
    [|apply getitem_Raise in Hs as [Hs ->]; injection He as <-; auto].
  rewrite !bind_Ok in He. right.
  assert (Hup : <[k := add x s]> params = perturb add steps params k).
  { unfold perturb, getitem in *. destruct (params !! k) eqn:Hpk; [|done].
    destruct (steps !! k) eqn:Hsk; [|done]. simplify_eq.
    by rewrite (lookup_total_correct _ _ _ Hpk), (lookup_total_correct _ _ _ Hsk). }
  assert (Hdown : <[k := sub x s]> params = perturb sub steps params k).
  { unfold perturb, getitem in *. destruct (params !! k) eqn:Hpk; [|done].
    destruct (steps !! k) eqn:Hsk; [|done]. simplify_eq.
    by rewrite (lookup_total_correct _ _ _ Hpk), (lookup_total_correct _ _ _ Hsk). }
  rewrite Hup, Hdown in He. unfold render.
  destruct (get_galaxies_models (perturb add steps params k)) as [gu|e1] eqn:Hgu;
    [|injection He as <-; exists (perturb add steps params k);
      split; [auto|]; by rewrite Hgu].
  rewrite bind_Ok in He.
  destruct (get_galaxies_models (perturb sub steps params k)) as [gd|e1] eqn:Hgd;
    [|injection He as <-; exists (perturb sub steps params k);
      split; [auto|]; by rewrite Hgd].
  rewrite bind_Ok in He.
  destruct (partials_get_image gu) as [iu|e1] eqn:Hiu;
    [|injection He as <-; exists (perturb add steps params k);
      split; [auto|]; by rewrite Hgu, bind_Ok].
  rewrite bind_Ok in He.
  destruct (partials_get_image gd) as [id|e1] eqn:Hid;
    [|injection He as <-; exists (perturb sub steps params k);
      split; [auto|]; by rewrite Hgd, bind_Ok].
  by rewrite !bind_Ok in He.
Qed.
End StepPolicy.

(** Splits a successful sequence of statements at its first statement. *)
Ltac invert_bind H x E :=
  match type of H with
  | (?m ≫= _) = Ok _ =>
      destruct m as [x|] eqn:E; [rewrite bind_Ok in H | discriminate H]
  end.

(** Splits a successful sequence of statements at every statement. *)
Ltac invert_binds H :=
  repeat match type of H with
  | (?m ≫= _) = Ok _ =>
      let E := fresh "Hstmt" in
      destruct m eqn:E; [rewrite bind_Ok in H | discriminate H]
  end.

Lemma index_Ok_inv {A} (l : list A) i x : index l i = Ok x → l !! i = Some x.
Proof. unfold index. destruct (l !! i); [by intros [= ->] | done]. Qed.

Lemma elem_of_range i n : i ∈ range n ↔ i < n.
Proof. unfold range. rewrite elem_of_seq. lia. Qed.

(** ** Dicts that only grow *)

Section Covers.
Context {A : Type} `{Countable K} {V : Type}.

Lemma grows_insert (d : gmap K V) k v : grows d (<[k := v]> d).
Proof. intros k' Hk'. rewrite lookup_insert_is_Some. destruct (decide (k = k')); auto. Qed.

(** A loop each of whose iterations only adds keys, and adds the keys
    [covers x], ends on a dict that has the keys of every iteration. *)
Lemma for_each_covers (covers : A → K → Prop) (l : list A)
    (body : A → gmap K V → result (gmap K V)) d d' :
  (∀ x t t', x ∈ l → body x t = Ok t' →
     grows t t' ∧ ∀ k, covers x k → is_Some (t' !! k)) →
  for_each l body d = Ok d' →
  grows d d' ∧ ∀ x k, x ∈ l → covers x k → is_Some (d' !! k).
Proof.
  revert d. induction l as [|x l IH]; intros d Hb Hl.
  - injection Hl as <-. split; [by intros k|]. intros x k Hx. by inversion Hx.
  - cbn [for_each] in Hl. destruct (body x d) as [t|e] eqn:Hx; [|done].
    rewrite bind_Ok in Hl.
    destruct (Hb x d t) as [Hgrow Hcov]; [left | done |].
    destruct (IH t) as [Hgrow' Hcov']; [|done|].
    { intros y u u' Hy. apply Hb. by right. }
    split; [intros k Hk; auto|].
    intros y k Hy Hyk. apply elem_of_cons in Hy as [->|Hy]; eauto.
Qed.
End Covers.

Section NestedCovers.
Context {A : Type} `{Countable A} {V : Type}.
Implicit Types (names : list A).

Lemma for_each_range1_populated names
    (body : nat → gmap A V → result (gmap A V)) d d' :
  (∀ i t t', body i t = Ok t' →
     ∃ a v, names !! i = Some a ∧ t' = <[a := v]> t) →
  for_each (range (length names)) body d = Ok d' →
  populated names d'.
Proof.
  intros Hb Hl.
  apply (for_each_covers (λ i k, names !! i = Some k)) in Hl as [_ Hcov].
  - apply Forall_forall. intros a Ha.
    apply list_elem_of_lookup in Ha as [i Hi].
    apply (Hcov i); [|done]. apply elem_of_range. eauto using lookup_lt_Some.
  - intros i t t' _ Hi. destruct (Hb i t t' Hi) as (a & v & Ha & ->).
    split; [apply grows_insert|]. intros k Hk. simplify_eq.
    rewrite lookup_insert_eq. eauto.
Qed.

Lemma for_each_range2_populated names
    (body : nat → nat → gmap (A * A) V → result (gmap (A * A) V)) d d' :
  (∀ i j t t', body i j t = Ok t' →
     ∃ a b v, names !! i = Some a ∧ names !! j = Some b ∧
              t' = <[(a, b) := v]> t) →
  for_each (range (length names)) (λ i d,
    for_each (range (length names)) (λ j d, body i j d) d) d = Ok d' →
  populated (pairs names) d'.
Proof.
  intros Hb Hl.
  apply (for_each_covers
    (λ i k, names !! i = Some k.1 ∧ k.2 ∈ names)) in Hl as [_ Hcov].
  - apply Forall_forall. intros [a b] Hab.
    apply elem_of_pairs in Hab as [Ha Hb'].
    apply list_elem_of_lookup in Ha as [i Hi].
    apply (Hcov i); [|done]. apply elem_of_range. eauto using lookup_lt_Some.
  - intros i t t' _ Hi.
    apply (for_each_covers
      (λ j k, names !! i = Some k.1 ∧ names !! j = Some k.2)) in Hi
      as [Hgrow Hcov].
    + split; [done|]. intros [a b] [Ha Hb']. simpl in *.
      apply list_elem_of_lookup in Hb' as [j Hj].
      apply (Hcov j); [|done]. apply elem_of_range. eauto using lookup_lt_Some.
    + intros j u u' _ Hj. destruct (Hb i j u u' Hj) as (a & b & v & Ha & Hb' & ->).
      split; [apply grows_insert|]. intros [a' b'] [Ha' Hb'']. simpl in *.
      simplify_eq. rewrite lookup_insert_eq. eauto.
Qed.
End NestedCovers.

Section MethodsPopulate.
Context {F : Type} `{Arith F} {npix : nat} {galaxy : Type}.
Variable get_galaxies_models : gmap string F → result galaxy.
Variable partials_get_image : galaxy → result (vec F npix).
Implicit Types (names : list string) (params steps : gmap string F).

Lemma get_derivative_images_populated names params steps D :
  get_derivative_images get_galaxies_models partials_get_image
    names params steps = Ok D →
  populated names D.
Proof.
  unfold get_derivative_images. apply for_each_range1_populated.
  intros i t t' Hi. invert_binds Hi. injection Hi as <-.
  eauto using index_Ok_inv.
Qed.

Lemma get_second_derivatives_images_populated names params steps SD :
  get_second_derivatives_images get_galaxies_models partials_get_image
    names params steps = Ok SD →
  populated (pairs names) SD.
Proof.
  unfold get_second_derivatives_images. apply for_each_range2_populated.
  intros i j t t' Hi. invert_binds Hi. injection Hi as <-.
  eauto 10 using index_Ok_inv.
Qed.

Lemma numpy_array_to_matrix_populated names (array : list (list F)) M :
  numpy_array_to_matrix names array = Ok M → populated (pairs names) M.
Proof.
  unfold numpy_array_to_matrix. apply for_each_range2_populated.
  intros i j t t' Hi. invert_binds Hi. injection Hi as <-.
  eauto 10 using index_Ok_inv.
Qed.
End MethodsPopulate.

(** ** The constructor *)

Section Constructor.
Context {F : Type} `{Arith F} {npix : nat} {galaxy renderer : Type}.
Variable get_galaxies_models_of : GParameters F → result galaxy.
Variable get_galaxies_models : gmap string F → result galaxy.
Variable get_galaxy_model : gmap string F → result galaxy.
Variable get_image : renderer → galaxy → result (list F).
Variable partials_get_image : renderer → galaxy → result (vec F npix).
Variable get_steps : GParameters F → renderer → result (gmap string F).
Variable linalg_inv : list (list F) → result (list (list F)).
Variable linalg_cond : list (list F) → result F.

(** C5, as the code has it. The condition number is the last thing the
    constructor computes, after the covariance: when the construction
    completes, the inversion of the dense Fisher matrix has succeeded and
    [fisher_condition_number] is what [numpy.linalg.cond] returns on that
    dense matrix; when the stages before the inversion succeed and
    [numpy.linalg.inv] raises, the constructor raises the same exception
    and no condition number is produced. *)
Theorem condition_number_follows_inversion
    (add_noise : list F → F → option Z → result (list F * F))
    (g : GParameters F) (r : renderer) (snr0 : F) (vn : option F) :
  (∀ self,
     __init__ get_galaxies_models_of get_galaxies_models get_galaxy_model
       get_image partials_get_image add_noise get_steps linalg_inv linalg_cond
       g r snr0 vn = Ok self →
     ∃ fisher_array covariance_array,
       matrix_to_numpy_array (param_names self) (fisher_matrix self)
         = Ok fisher_array ∧
       linalg_inv fisher_array = Ok covariance_array ∧
       linalg_cond fisher_array = Ok (fisher_condition_number self)) ∧
  (∀ gal img noise st D SD FI FM fisher_array e,
     get_galaxies_models_of g = Ok gal →
     get_image r gal = Ok img →
     init_var_noise get_galaxy_model get_image add_noise g r img snr0 vn
       = Ok noise →
     get_steps g r = Ok st →
     get_derivative_images get_galaxies_models (partials_get_image r)
       (ordered_fit_names g) (params g) st = Ok D →
     get_second_derivatives_images get_galaxies_models (partials_get_image r)
       (ordered_fit_names g) (params g) st = Ok SD →
     get_fisher_matrix_images (ordered_fit_names g) noise.1 D = Ok FI →
     get_fisher_matrix (ordered_fit_names g) FI = Ok FM →
     matrix_to_numpy_array (ordered_fit_names g) FM = Ok fisher_array →
     linalg_inv fisher_array = Raise e →
     __init__ get_galaxies_models_of get_galaxies_models get_galaxy_model
       get_image partials_get_image add_noise get_steps linalg_inv linalg_cond
       g r snr0 vn = Raise e).
Proof.
  split.
  - intros self Hinit. unfold __init__ in Hinit.
    invert_bind Hinit gal Hgal. invert_bind Hinit img Himg.
    invert_bind Hinit noise Hnoise. destruct noise as [v sn].
    invert_bind Hinit st Hst. invert_bind Hinit D HD.
    invert_bind Hinit SD HSD. invert_bind Hinit FI HFI.
    invert_bind Hinit FM HFM. invert_bind Hinit cov Hcov.
    invert_bind Hinit corr Hcorr. invert_bind Hinit B HB.
    invert_bind Hinit BM HBM. invert_bind Hinit BI HBI.
    invert_bind Hinit bs Hbs. invert_bind Hinit c Hcond.
    injection Hinit as <-. simpl.
    unfold get_covariance_matrix in Hcov.
    unfold get_fisher_condition_number in Hcond.
    invert_bind Hcov fisher_array Harr. rewrite bind_Ok in Hcond.
    invert_bind Hcov covariance_array Hinv.
    eauto.
  - intros gal img [v sn] st D SD FI FM fisher_array e
      Hgal Himg Hnoise Hst HD HSD HFI HFM Harr Hinv.
    unfold __init__. rewrite Hgal, bind_Ok, Himg, bind_Ok, Hnoise, bind_Ok.
    rewrite Hst, bind_Ok, HD, bind_Ok, HSD, bind_Ok. simpl in HFI.
    rewrite HFI, bind_Ok, HFM, bind_Ok.
    unfold get_covariance_matrix. by rewrite Harr, bind_Ok, Hinv.
Qed.

(** C10. With the same parameters, the same renderers and the same
    [var_noise] given explicitly, two constructions that differ in [snr]
    (and in the noise model they are handed, which is therefore never
    consulted) raise the same exception or expose the same
    [fisher_matrix], [covariance_matrix], [correlation_matrix],
    [bias_matrix], [bias_images], [biases] and
    [fisher_condition_number]. *)
Theorem outputs_independent_of_snr
    (add_noise1 add_noise2 : list F → F → option Z → result (list F * F))
    (g : GParameters F) (r : renderer) (snr1 snr2 : F) (v : F) :
  outputs <$>
    __init__ get_galaxies_models_of get_galaxies_models get_galaxy_model
      get_image partials_get_image add_noise1 get_steps linalg_inv linalg_cond
      g r snr1 (Some v)
  = outputs <$>
    __init__ get_galaxies_models_of get_galaxies_models get_galaxy_model
      get_image partials_get_image add_noise2 get_steps linalg_inv linalg_cond
      g r snr2 (Some v).
Proof.
  unfold __init__, init_var_noise.
  repeat match goal with
  | |- _ <$> (?m ≫= _) = _ <$> (?m ≫= _) =>
      destruct m; [rewrite !bind_Ok; cbv beta iota | reflexivity]
  end.
  reflexivity.
Qed.

(** [get_covariance_matrix] has no test of its own: once the Fisher matrix
    is dense, it raises or returns as [numpy.linalg.inv] does. *)
Lemma get_covariance_matrix_follows_inv (names : list string)
    (FM : gmap (string * string) F) (fisher_array : list (list F)) :
  matrix_to_numpy_array names FM = Ok fisher_array →
  get_covariance_matrix linalg_inv names FM
  = linalg_inv fisher_array ≫= numpy_array_to_matrix names.
Proof. intros Harr. unfold get_covariance_matrix. by rewrite Harr, bind_Ok. Qed.

(** C6, as the code has it. [get_covariance_matrix] tests nothing
    itself: given a Fisher matrix with an entry for every ordered pair,
    it hands the dense matrix to [numpy.linalg.inv]; when that raises it
    raises the same exception, and when that returns a P×P array it
    returns the entries of that array under their names, whatever they
    are. Whether a singular matrix is an error is decided by
    [numpy.linalg.inv] alone. *)
Theorem covariance_follows_inversion (names : list string)
    (FM : gmap (string * string) F) :
  populated (pairs names) FM →
  ∃ fisher_array,
    matrix_to_numpy_array names FM = Ok fisher_array ∧
    (∀ i j a b, names !! i = Some a → names !! j = Some b →
       at2 fisher_array i j = Some (FM !!! (a, b))) ∧
    (∀ e, linalg_inv fisher_array = Raise e →
       get_covariance_matrix linalg_inv names FM = Raise e) ∧
    (∀ covariance_array,
       linalg_inv fisher_array = Ok covariance_array →
       square (length names) covariance_array → NoDup names →
       ∃ cov,
         get_covariance_matrix linalg_inv names FM = Ok cov ∧
         ∀ i j a b, names !! i = Some a → names !! j = Some b →
           cov !! (a, b) = at2 covariance_array i j).
Proof.
  intros HFM.
  destruct (matrix_to_numpy_array_spec names FM HFM)
    as (fisher_array & Harr & _ & Hent).
  exists fisher_array. split; [exact Harr|]. split; [exact Hent|]. split.
  - intros e He. unfold get_covariance_matrix. by rewrite Harr, bind_Ok, He.
  - intros covariance_array Hinv Hsq Hnd.
    set (g := λ k : string * string,
      default zero
        (at2 covariance_array (position names k.1) (position names k.2))).
    assert (Hg : ∀ i j a b, names !! i = Some a → names !! j = Some b →
                 at2 covariance_array i j = Some (g (a, b))).
    { intros i j a b Hi Hj. unfold g. simpl.
      rewrite (position_lookup names i a), (position_lookup names j b) by done.
      destruct (square_at2 _ covariance_array i j Hsq) as [x ->];
        eauto using lookup_lt_Some. }
    exists (tabulate g (pairs names) ∅). split.
    + unfold get_covariance_matrix. rewrite Harr, bind_Ok, Hinv, bind_Ok.
      by apply numpy_array_to_matrix_eq.
    + intros i j a b Hi Hj. rewrite (Hg i j a b Hi Hj).
      apply lookup_tabulate_elem.
      apply elem_of_pairs; eauto using list_elem_of_lookup_2.
Qed.

(** Every attribute of a constructed object is what the method of that
    attribute returns on the attributes computed before it. *)
Lemma constructed_stages
    (add_noise : list F → F → option Z → result (list F * F))
    (g : GParameters F) (r : renderer) (snr0 : F) (vn : option F) self :
  __init__ get_galaxies_models_of get_galaxies_models get_galaxy_model
    get_image partials_get_image add_noise get_steps linalg_inv linalg_cond
    g r snr0 vn = Ok self →
  param_names self = ordered_fit_names g ∧
  num_params self = length (param_names self) ∧
  get_steps g r = Ok (steps self) ∧
  get_derivative_images get_galaxies_models (partials_get_image r)
    (param_names self) (params g) (steps self)
    = Ok (derivatives_images self) ∧
  get_second_derivatives_images get_galaxies_models (partials_get_image r)
    (param_names self) (params g) (steps self)
    = Ok (second_derivatives_images self) ∧
  get_fisher_matrix_images (param_names self) (var_noise self)
    (derivatives_images self) = Ok (fisher_matrix_images self) ∧
  get_fisher_matrix (param_names self) (fisher_matrix_images self)
    = Ok (fisher_matrix self) ∧
  get_covariance_matrix linalg_inv (param_names self) (fisher_matrix self)
    = Ok (covariance_matrix self) ∧
  get_correlation_matrix (param_names self) (covariance_matrix self)
    = Ok (correlation_matrix self) ∧
  get_bias_matrix_images (param_names self) (var_noise self)
    (derivatives_images self) (second_derivatives_images self)
    = Ok (bias_matrix_images self) ∧
  get_bias_matrix (param_names self) (bias_matrix_images self)
    = Ok (bias_matrix self) ∧
  get_bias_images (param_names self) (covariance_matrix self)
    (bias_matrix_images self) = Ok (bias_images self) ∧
  get_biases (param_names self) (bias_images self) = Ok (biases self) ∧
  get_fisher_condition_number linalg_cond (param_names self)
    (fisher_matrix self) = Ok (fisher_condition_number self).
Proof.
  intros Hinit. unfold __init__ in Hinit.
  invert_bind Hinit gal Hgal. invert_bind Hinit img Himg.
  invert_bind Hinit noise Hnoise. destruct noise as [v sn].
  invert_bind Hinit st Hst. invert_bind Hinit D HD.
  invert_bind Hinit SD HSD. invert_bind Hinit FI HFI.
  invert_bind Hinit FM HFM. invert_bind Hinit cov Hcov.
  invert_bind Hinit corr Hcorr. invert_bind Hinit B HB.
  invert_bind Hinit BM HBM. invert_bind Hinit BI HBI.
  invert_bind Hinit bs Hbs. invert_bind Hinit c Hcond.
  injection Hinit as <-. simpl. repeat split; done.
Qed.

(** The dicts of a constructed object have an entry for every name, or
    pair of names, of the ordering: the claims about the methods apply to
    the attributes of every constructed object. *)
Lemma constructed_populated
    (add_noise : list F → F → option Z → result (list F * F))
    (g : GParameters F) (r : renderer) (snr0 : F) (vn : option F) self :
  __init__ get_galaxies_models_of get_galaxies_models get_galaxy_model
    get_image partials_get_image add_noise get_steps linalg_inv linalg_cond
    g r snr0 vn = Ok self →
  populated (param_names self) (derivatives_images self) ∧
  populated (pairs (param_names self)) (second_derivatives_images self) ∧
  populated (pairs (param_names self)) (covariance_matrix self).
Proof.
  intros Hinit.
  destruct (constructed_stages _ _ _ _ _ _ Hinit)
    as (_ & _ & _ & HD & HSD & _ & _ & Hcov & _).
  split; [by eapply get_derivative_images_populated|].
  split; [by eapply get_second_derivatives_images_populated|].
  unfold get_covariance_matrix in Hcov. invert_binds Hcov.
  by eapply numpy_array_to_matrix_populated.
Qed.

(** The Fisher matrix and the bias images of a constructed object. *)
Lemma constructed_fisher_and_bias
    (add_noise : list F → F → option Z → result (list F * F))
    (g : GParameters F) (r : renderer) (snr0 : F) (vn : option F) self :
  __init__ get_galaxies_models_of get_galaxies_models get_galaxy_model
    get_image partials_get_image add_noise get_steps linalg_inv linalg_cond
    g r snr0 vn = Ok self →
  (∀ i j, i ∈ param_names self → j ∈ param_names self →
     fisher_matrix_images self !! (i, j)
       = Some (img_div_scalar
                 (img_mul (derivatives_images self !!! i)
                          (derivatives_images self !!! j))
                 (var_noise self)) ∧
     fisher_matrix self !! (i, j)
       = Some (img_sum (fisher_matrix_images self !!! (i, j)))) ∧
  (∀ i, i ∈ param_names self →
     ∃ img, bias_images self !! i = Some img ∧
       ∀ p, img !!! p
            = bias_pixel_spec (param_names self) (covariance_matrix self)
                (bias_matrix_images self) i p).
Proof.
  intros Hinit.
  destruct (constructed_populated _ _ _ _ _ _ Hinit) as (HD & HSD & Hcov).
  destruct (constructed_stages _ _ _ _ _ _ Hinit)
    as (_ & _ & _ & _ & _ & HFI & HFM & _ & _ & HB & _ & HBI & _).
  rewrite get_fisher_matrix_images_eq in HFI by done.
  injection HFI as HFI.
  rewrite get_bias_matrix_images_eq in HB by done. injection HB as HB.
  rewrite get_fisher_matrix_eq in HFM
    by (rewrite <-HFI; apply populated_tabulate).
  injection HFM as HFM.
  rewrite get_bias_images_eq in HBI
    by (done || rewrite <-HB; apply populated_tabulate).
  injection HBI as HBI.
  split.
  - intros i j Hi Hj.
    assert (Hij : (i, j) ∈ pairs (param_names self)) by by apply elem_of_pairs.
    rewrite <-HFM, <-HFI at 1. by rewrite !lookup_tabulate_elem.
  - intros i Hi. eexists. split.
    + rewrite <-HBI. by apply lookup_tabulate_elem.
    + intros p. apply bias_summation_lookup.
Qed.
End Constructor.

(** ** Correlations over the reals *)



(** * Concrete runs, in binary64 *)

Section Runs.
Import Sample.
Local Open Scope float_scope.

(** Decides a closed decidable proposition by evaluation. *)
Ltac by_evaluation := apply (bool_decide_unpack _); vm_compute; exact I.


(** C2 at two parameters and two pixels. *)
Lemma bias_images_contraction_witness :
  populated names derivatives ∧ populated (pairs names) seconds ∧
  populated (pairs names) covariance ∧
  ∃ B BI,
    get_bias_matrix_images names 2 derivatives seconds = Ok B ∧
    get_bias_images names covariance B = Ok BI ∧
    ∃ img, BI !! "b"%string = Some img ∧
      ∀ p, img !!! p = bias_pixel_spec names covariance B "b" p.
Proof.
  split; [by_evaluation|]. split; [by_evaluation|]. split; [by_evaluation|].
  destruct (bias_images_contraction names 2 derivatives seconds covariance)
    as (B & BI & HB & HBI & _ & Hpix); [by_evaluation..|].
  exists B, BI. split; [exact HB|]. split; [exact HBI|].
  apply Hpix. by_evaluation.
Defined.

(** The renderer of the example returns [rendered v] on every vector
    that has both parameters. *)
Lemma example_renders v :
  is_Some (v !! "a"%string) → is_Some (v !! "b"%string) →
  renders get_galaxies_models partials_get_image rendered v.
Proof.
  intros Ha Hb. unfold renders, render, get_galaxies_models, partials_get_image.
  by rewrite bind_Ok, !getitem_total, !bind_Ok.
Qed.

(** C4 at two parameters and two pixels: the image has the pixels
    [a * b] and [a + b], the base vector is a = 1, b = 2 and the steps are
    0.5 and 0.25. The derivative image of [a] is [2; 1] and that of [b]
    is [1; 1]. *)
Lemma derivative_images_centered_difference_witness :
  populated names base ∧ populated names step_sizes ∧
  ∃ D,
    get_derivative_images get_galaxies_models partials_get_image
      names base step_sizes = Ok D ∧
    (∃ params_up params_down,
      params_up !! "a"%string
        = Some (add (base !!! "a"%string) (step_sizes !!! "a"%string)) ∧
      params_down !! "a"%string
        = Some (sub (base !!! "a"%string) (step_sizes !!! "a"%string)) ∧
      D !! "a"%string
        = Some (img_div_scalar
                  (img_sub (rendered params_up) (rendered params_down))
                  (mul two (step_sizes !!! "a"%string))) ∧
      ∀ p, (D !!! "a"%string) !!! p
           = div (sub (rendered params_up !!! p) (rendered params_down !!! p))
                 (mul two (step_sizes !!! "a"%string))) ∧
    D !! "a"%string = Some [# 2; 1] ∧
    D !! "b"%string = Some [# 1; 1].
Proof.
  split; [by_evaluation|]. split; [by_evaluation|].
  destruct (derivative_images_centered_difference
              get_galaxies_models partials_get_image rendered
              names base step_sizes) as (D & HD & Hent).
  - by_evaluation.
  - by_evaluation.
  - repeat constructor; apply example_renders; by_evaluation.
  - exists D. split; [exact HD|]. split.
    + destruct (Hent "a"%string) as (up & down & Hup & Hdown & _ & Hk & Hpix);
        [by_evaluation|].
      exists up, down. auto.
    + assert (Hrun :
        (λ D, (D !! "a"%string, D !! "b"%string))
          <$> get_derivative_images get_galaxies_models partials_get_image
                names base step_sizes
        = Ok (Some [# 2; 1], Some [# 1; 1])) by (vm_compute; reflexivity).
      rewrite HD in Hrun. cbn [fmap result_fmap] in Hrun.
      by injection Hrun as -> ->.
Defined.
(** C3 at two parameters and two pixels: the image has the pixels
    [a * b] and [a + b]. The second-derivative image of (a,b), and of
    (b,a), is [1; 0]; that of the diagonal pair (a,a) is [0; 0], its
    up-up corner holding the step added twice. *)
Lemma second_derivative_images_four_corners_witness :
  populated names base ∧ populated names step_sizes ∧
  ∃ SD,
    get_second_derivatives_images get_galaxies_models partials_get_image
      names base step_sizes = Ok SD ∧
    SD !! ("a", "a")%string
      = Some (second_difference_spec rendered base step_sizes ("a", "a")%string) ∧
    (∀ p, (SD !!! ("a", "b")%string) !!! p
          = div (sub (sub (add
              (rendered (perturb add step_sizes
                           (perturb add step_sizes base "a") "b") !!! p)
              (rendered (perturb sub step_sizes
                           (perturb sub step_sizes base "a") "b") !!! p))
              (rendered (perturb add step_sizes
                           (perturb sub step_sizes base "a") "b") !!! p))
              (rendered (perturb sub step_sizes
                           (perturb add step_sizes base "a") "b") !!! p))
              (mul (mul four (step_sizes !!! "a"%string))
                   (step_sizes !!! "b"%string))) ∧
    perturb add step_sizes (perturb add step_sizes base "a") "a" !! "a"%string
      = Some (add (add (base !!! "a"%string) (step_sizes !!! "a"%string))
                  (step_sizes !!! "a"%string)) ∧
    SD !! ("a", "b")%string = Some [# 1; 0] ∧
    SD !! ("b", "a")%string = Some [# 1; 0] ∧
    SD !! ("a", "a")%string = Some [# 0; 0].
Proof.
  split; [by_evaluation|]. split; [by_evaluation|].
  destruct (second_derivative_images_four_corners
              get_galaxies_models partials_get_image rendered
              names base step_sizes) as (SD & HSD & Hent).
  - by_evaluation.
  - by_evaluation.
  - repeat constructor; apply example_renders; by_evaluation.
  - exists SD. split; [exact HSD|].
    destruct (Hent "a"%string "a"%string) as (Hk & _ & Hdiag & _);
      [by_evaluation..|].
    destruct (Hent "a"%string "b"%string) as (_ & Hpix & _);
      [by_evaluation..|].
    split; [exact Hk|]. split; [exact Hpix|].
    split; [exact (proj1 (Hdiag eq_refl))|].
    assert (Hrun :
      (λ SD, (SD !! ("a", "b")%string, SD !! ("b", "a")%string,
              SD !! ("a", "a")%string))
        <$> get_second_derivatives_images get_galaxies_models
              partials_get_image names base step_sizes
      = Ok (Some [# 1; 0], Some [# 1; 0], Some [# 0; 0]))
      by (vm_compute; reflexivity).
    rewrite HSD in Hrun. cbn [fmap result_fmap] in Hrun.
    by injection Hrun as -> -> ->.
Defined.

(** C7 as amended: negative steps for both parameters give the centred
    differences; with a step missing the computation raises KeyError, and
    the theorem finds the parameter. *)
Lemma derivative_images_accept_any_step_witness :
  populated names base ∧
  populated names ({["a"%string := -0.5; "b"%string := -0.25]} : gmap string float) ∧
  get_derivative_images get_galaxies_models partials_get_image
    names base {["a"%string := -0.5; "b"%string := -0.25]}
  = Ok (tabulate
          (first_difference_spec rendered base
             {["a"%string := -0.5; "b"%string := -0.25]}) names ∅) ∧
  get_derivative_images get_galaxies_models partials_get_image
    names base {["a"%string := -0.5]} = Raise KeyError ∧
  ∃ k, k ∈ names ∧
    ((KeyError = KeyError ∧
      (base !! k = None ∨ ({["a"%string := -0.5]} : gmap string float) !! k = None)) ∨
     ∃ v, (v = perturb add {["a"%string := -0.5]} base k ∨
           v = perturb sub {["a"%string := -0.5]} base k) ∧
          render get_galaxies_models partials_get_image v = Raise KeyError).
Proof.
  split; [by_evaluation|]. split; [by_evaluation|]. split; [|split].
  - apply (proj1 (derivative_images_accept_any_step
                    get_galaxies_models partials_get_image rendered
                    names base {["a"%string := -0.5; "b"%string := -0.25]})).
    + by_evaluation.
    + by_evaluation.
    + repeat constructor; apply example_renders; by_evaluation.
  - vm_compute. reflexivity.
  - apply (proj2 (derivative_images_accept_any_step
                    get_galaxies_models partials_get_image rendered
                    names base {["a"%string := -0.5]})).
    vm_compute. reflexivity.
Defined.

(** C8 on a 2×2 matrix, both ways. *)
Lemma labeling_round_trip_witness :
  populated (pairs names) covariance ∧
  map_Forall (λ k _, k ∈ pairs names) covariance ∧
  NoDup names ∧ square (length names) dense ∧
  (∃ array, matrix_to_numpy_array names covariance = Ok array ∧
            numpy_array_to_matrix names array = Ok covariance) ∧
  (∃ M, numpy_array_to_matrix names dense = Ok M ∧
        matrix_to_numpy_array names M = Ok dense).
Proof.
  assert (Hpop : populated (pairs names) covariance) by by_evaluation.
  assert (Hdom : map_Forall (λ k _, k ∈ pairs names) covariance)
    by by_evaluation.
  assert (Hnd : NoDup names) by by_evaluation.
  assert (Hsq : square (length names) dense)
    by (split; [reflexivity | repeat constructor]).
  do 4 (split; [assumption|]).
  destruct (labeling_round_trip (F:=float) names) as [Hnamed Hdense].
  split.
  - apply Hnamed; [exact Hpop|]. intros k [x Hx]. exact (Hdom k x Hx).
  - apply Hdense; assumption.
Defined.
(** C5: a renderer whose image ignores the parameters gives a zero
    derivative and a zero Fisher matrix; [numpy.linalg.inv] raises, the
    constructor raises with it, and no object, hence no condition number,
    reaches the caller, although [numpy.linalg.cond] returns on that
    matrix. *)
Lemma singular_fisher_no_condition_number :
  get_fisher_matrix ["a"%string]
    ({[("a", "a")%string := [# 0]]} : gmap (string * string) (vec float 1))
    = Ok {[("a", "a")%string := 0]} ∧
  get_fisher_condition_number linalg_cond ["a"%string]
    {[("a", "a")%string := 0]} = Ok infinity ∧
  construct flat_image 0.5 10 (Some 2) = Raise LinAlgError ∧
  ∀ self, construct flat_image 0.5 10 (Some 2) ≠ Ok self.
Proof.
  assert (Hrun : construct flat_image 0.5 10 (Some 2) = Raise LinAlgError)
    by (vm_compute; reflexivity).
  split; [vm_compute; reflexivity|]. split; [vm_compute; reflexivity|].
  split; [exact Hrun|]. intros self Hself. rewrite Hrun in Hself. discriminate.
Qed.

(** C5 as amended, on a construction that completes and on one whose
    inversion raises. *)
Lemma condition_number_follows_inversion_witness :
  (∃ self, construct linear_image 0.5 10 (Some 2) = Ok self ∧
     ∃ fisher_array covariance_array,
       matrix_to_numpy_array (param_names self) (fisher_matrix self)
         = Ok fisher_array ∧
       linalg_inv fisher_array = Ok covariance_array ∧
       linalg_cond fisher_array = Ok (fisher_condition_number self)) ∧
  linalg_inv [[0]] = Raise LinAlgError ∧
  construct flat_image 0.5 10 (Some 2) = Raise LinAlgError.
Proof.
  split; [|split; [reflexivity|]].
  - destruct (construct linear_image 0.5 10 (Some 2)) as [self|e] eqn:Hrun.
    + exists self. split; [reflexivity|].
      exact (proj1 (condition_number_follows_inversion
                      get_galaxies_models_of get_galaxies_models
                      get_galaxy_model get_image linear_image
                      (get_steps 0.5) linalg_inv linalg_cond add_noise
                      g_parameters () 10 (Some 2)) self Hrun).
    + vm_compute in Hrun. discriminate Hrun.
  - eapply (proj2 (condition_number_follows_inversion
                     get_galaxies_models_of get_galaxies_models
                     get_galaxy_model get_image flat_image
                     (get_steps 0.5) linalg_inv linalg_cond add_noise
                     g_parameters () 10 (Some 2))
             _ _ (_, _)); reflexivity.
Defined.

(** C6: derivative images of one pixel, 3 for [a] and 31 for [b], and
    the noise variance 1. The Fisher matrix is [[9, 93], [93, 961]], which
    is singular: its rows are 3 times and 31 times the row [3, 31], and
    9 * 961 - 93 * 93 is exactly 0. [numpy.linalg.inv] does not raise on
    it (the multiplier 9 * (1 / 93) is rounded, which leaves the pivot
    93 - (9 * (1 / 93)) * 961 different from zero), and
    [get_covariance_matrix] returns a covariance that has, under every
    ordered pair of names, an entry that is a finite number. *)
Lemma singular_fisher_is_inverted :
  (get_fisher_matrix_images names 1 proportional ≫= get_fisher_matrix names)
    = Ok proportional_fisher ∧
  matrix_to_numpy_array names proportional_fisher
    = Ok [[9; 93]; [93; 961]] ∧
  9 * 961 - 93 * 93 = 0 ∧ 9 * 961 = 8649 ∧ 93 * 93 = 8649 ∧
  PrimFloat.eqb (93 - (9 * (1 / 93)) * 961) 0 = false ∧
  (λ cov, (λ k, PrimFloat.is_finite <$> cov !! k) <$> pairs names)
    <$> get_covariance_matrix linalg_inv names proportional_fisher
    = Ok [Some true; Some true; Some true; Some true].
Proof. repeat split; vm_compute; reflexivity. Qed.

(** C6 as amended, on the singular Fisher matrix above, which
    [numpy.linalg.inv] inverts, and on the Fisher matrix of a zero
    derivative image, [[0, 0], [0, 961]], on which it raises. *)
Lemma covariance_follows_inversion_witness :
  populated (pairs names) proportional_fisher ∧
  (∃ covariance_array cov,
     linalg_inv [[9; 93]; [93; 961]] = Ok covariance_array ∧
     get_covariance_matrix linalg_inv names proportional_fisher = Ok cov ∧
     cov !! ("a", "b")%string = at2 covariance_array 0 1) ∧
  (get_fisher_matrix_images names 1 vanishing ≫= get_fisher_matrix names)
    = Ok vanishing_fisher ∧
  linalg_inv [[0; 0]; [0; 961]] = Raise LinAlgError ∧
  get_covariance_matrix linalg_inv names vanishing_fisher
    = Raise LinAlgError.
Proof.
  assert (Hpop : populated (pairs names) proportional_fisher) by by_evaluation.
  split; [exact Hpop|]. split; [|split; [|split]].
  - destruct (covariance_follows_inversion linalg_inv names _ Hpop)
      as (fisher_array & Harr & _ & _ & Hok).
    assert (Harr' : matrix_to_numpy_array names proportional_fisher
                    = Ok [[9; 93]; [93; 961]]) by (vm_compute; reflexivity).
    rewrite Harr in Harr'. injection Harr' as ->.
    destruct (linalg_inv [[9; 93]; [93; 961]]) as [covariance_array|e] eqn:Hinv;
      [|vm_compute in Hinv; discriminate Hinv].
    destruct (Hok covariance_array eq_refl) as (cov & Hcov & Hent).
    + assert (Hinv' := Hinv). vm_compute in Hinv'. injection Hinv' as <-.
      split; [reflexivity | repeat constructor].
    + by_evaluation.
    + exists covariance_array, cov. split; [reflexivity|].
      split; [exact Hcov|]. by apply (Hent 0%nat 1%nat).
  - vm_compute. reflexivity.
  - vm_compute. reflexivity.
  - assert (Hpop0 : populated (pairs names) vanishing_fisher) by by_evaluation.
    destruct (covariance_follows_inversion linalg_inv names _ Hpop0)
      as (fisher_array & Harr & _ & Hraise & _).
    assert (Harr' : matrix_to_numpy_array names vanishing_fisher
                    = Ok [[0; 0]; [0; 961]]) by (vm_compute; reflexivity).
    rewrite Harr in Harr'. injection Harr' as ->.
    apply Hraise. vm_compute. reflexivity.
Defined.

(** C7: the step-size policy returns the negative step -0.5; nothing
    raises: the construction completes and the derivative image of [a] is
    the centred difference taken with that step. *)
Lemma negative_step_is_not_rejected :
  get_steps (-0.5) g_parameters () = Ok {["a"%string := -0.5]} ∧
  PrimFloat.ltb (-0.5) 0 = true ∧
  get_derivative_images get_galaxies_models (linear_image ()) ["a"%string]
    {["a"%string := 0]} {["a"%string := -0.5]}
    = Ok {["a"%string := [# 1]]} ∧
  (λ self, derivatives_images self !! "a"%string)
    <$> construct linear_image (-0.5) 10 (Some 2) = Ok (Some [# 1]).
Proof. repeat split; vm_compute; reflexivity. Qed.

End Runs.


(** * Further properties of the code *)

(** ** Loops that raise *)

Section RaisingLoops.
Context {A St : Type}.
Implicit Types (l : list A) (body : A → St → result St).

(** A loop all of whose iterations can only raise [e0], and one of whose
    iterations raises on every state, raises [e0]. *)
Lemma for_each_raises l body s e0 :
  (∀ x t e, x ∈ l → body x t = Raise e → e = e0) →
  (∃ x, x ∈ l ∧ ∀ t, ∃ e, body x t = Raise e) →
  for_each l body s = Raise e0.
Proof.
  revert s. induction l as [|x l IH]; intros s Honly (y & Hy & Hraise).
  - by inversion Hy.
  - cbn [for_each]. destruct (body x s) as [s'|e] eqn:Hx.
    + rewrite bind_Ok. apply IH.
      * intros z t e Hz. apply Honly. by right.
      * apply elem_of_cons in Hy as [->|Hy]; [|eauto].
        destruct (Hraise s) as [e He]. congruence.
    + simpl. f_equal. eapply Honly; [left | done].
Qed.

(** Every iteration of a loop that returns has returned on some state. *)
Lemma for_each_Ok_each l body s s' :
  for_each l body s = Ok s' → ∀ x, x ∈ l → ∃ t t', body x t = Ok t'.
Proof.
  revert s. induction l as [|x l IH]; intros s Hl y Hy; [by inversion Hy|].
  cbn [for_each] in Hl. destruct (body x s) as [t|e] eqn:Hx; [|done].
  rewrite bind_Ok in Hl. apply elem_of_cons in Hy as [->|Hy]; eauto.
Qed.

(** A loop that raises from a state satisfying an invariant its
    iterations keep, raises in an iteration started on such a state. *)
Lemma for_each_Raise_inv (I : St → Prop) l body s e :
  (∀ x t t', x ∈ l → I t → body x t = Ok t' → I t') →
  I s → for_each l body s = Raise e →
  ∃ x t, x ∈ l ∧ I t ∧ body x t = Raise e.
Proof.
  revert s. induction l as [|x l IH]; intros s Hkeep Hs Hl; [done|].
  cbn [for_each] in Hl. destruct (body x s) as [t|e'] eqn:Hx.
  - rewrite bind_Ok in Hl. destruct (IH t) as (y & u & Hy & Hu & Hyu); [| |done|].
    + intros z u u' Hz. apply Hkeep. by right.
    + eapply Hkeep; [left|done..].
    + exists y, u. split; [by right|done].
  - simpl in Hl. injection Hl as ->. exists x, s. split; [left|done].
Qed.
End RaisingLoops.

(** The multiplication of binary64 is commutative. *)
Lemma float_mul_comm (x y : float) : mul x y = mul y x.
Proof.
  change (PrimFloat.mul x y = PrimFloat.mul y x).
  apply Prim2SF_inj. rewrite !mul_spec. unfold SF64mul, SpecFloat.SFmul.
  destruct (Prim2SF x) as [sx|sx| |sx mx ex], (Prim2SF y) as [sy|sy| |sy my ey];
    try reflexivity; try (by rewrite xorb_comm).
  by rewrite xorb_comm, Pos.mul_comm, Z.add_comm.
Qed.

(** ** The keys of the dicts the loops fill *)

Section Keys.
Context {A : Type} `{Countable K} {V : Type}.

(** A loop whose iterations add only keys that satisfy [P] ends on a dict
    whose new keys satisfy [P]. *)
Lemma for_each_within (P : K → Prop) (l : list A)
    (body : A → gmap K V → result (gmap K V)) d d' :
  (∀ x t t', x ∈ l → body x t = Ok t' →
     ∀ k, is_Some (t' !! k) → is_Some (t !! k) ∨ P k) →
  for_each l body d = Ok d' →
  ∀ k, is_Some (d' !! k) → is_Some (d !! k) ∨ P k.
Proof.
  revert d. induction l as [|x l IH]; intros d Hb Hl k Hk.
  - injection Hl as <-. auto.
  - cbn [for_each] in Hl. destruct (body x d) as [t|e] eqn:Hx; [|done].
    rewrite bind_Ok in Hl.
    destruct (IH t) with (k := k) as [Ht|HP]; [|done..| |by right].
    { intros y u u' Hy. apply Hb. by right. }
    eapply Hb; [left|done..].
Qed.

Lemma within_insert (d : gmap K V) k0 v k :
  is_Some (<[k0 := v]> d !! k) → is_Some (d !! k) ∨ k = k0.
Proof. rewrite lookup_insert_is_Some. intros [->|[_ ?]]; auto. Qed.
End Keys.

Section NestedKeys.
Context {A : Type} `{Countable A} {V : Type}.
Implicit Types (names : list A).

Lemma for_each_range1_keys names
    (body : nat → gmap A V → result (gmap A V)) d' :
  (∀ i t t', body i t = Ok t' →
     ∃ a v, names !! i = Some a ∧ t' = <[a := v]> t) →
  for_each (range (length names)) body ∅ = Ok d' →
  keys_exactly names d'.
Proof.
  intros Hb Hl k. split.
  - intros Hk.
    assert (Hw : ∀ k, is_Some (d' !! k) → is_Some ((∅ : gmap A V) !! k) ∨ k ∈ names).
    { eapply for_each_within; [|exact Hl]. intros i t t' _ Hi k0 Hk0.
      destruct (Hb i t t' Hi) as (a & v & Ha & ->).
      apply within_insert in Hk0 as [?| ->];
        eauto using list_elem_of_lookup_2. }
    destruct (Hw k Hk) as [Hold|Hin]; [|done].
    rewrite lookup_empty in Hold. by destruct Hold.
  - intros Hk. eapply populated_elem; [|done].
    by eapply for_each_range1_populated.
Qed.

Lemma for_each_range2_keys names
    (body : nat → nat → gmap (A * A) V → result (gmap (A * A) V)) d' :
  (∀ i j t t', body i j t = Ok t' →
     ∃ a b v, names !! i = Some a ∧ names !! j = Some b ∧
              t' = <[(a, b) := v]> t) →
  for_each (range (length names)) (λ i d,
    for_each (range (length names)) (λ j d, body i j d) d) ∅ = Ok d' →
  keys_exactly (pairs names) d'.
Proof.
  intros Hb Hl k. split.
  - intros Hk.
    assert (Hw : ∀ k, is_Some (d' !! k)
                 → is_Some ((∅ : gmap (A * A) V) !! k) ∨ k ∈ pairs names).
    { eapply for_each_within; [|exact Hl]. intros i t t' _ Hi.
      eapply for_each_within; [|exact Hi]. intros j u u' _ Hj k0 Hk0.
      destruct (Hb i j u u' Hj) as (a & b & v & Ha & Hb' & ->).
      apply within_insert in Hk0 as [?| ->]; [by left|right].
      apply elem_of_pairs; split; eauto using list_elem_of_lookup_2. }
    destruct (Hw k Hk) as [Hold|Hin]; [|done].
    rewrite lookup_empty in Hold. by destruct Hold.
  - intros Hk. eapply populated_elem; [|done].
    by eapply for_each_range2_populated.
Qed.

Lemma for_each_range3_keys names
    (body : nat → nat → nat → gmap (A * A * A) V
            → result (gmap (A * A * A) V)) d' :
  (∀ i j l t t', body i j l t = Ok t' →
     ∃ a b c v, names !! i = Some a ∧ names !! j = Some b ∧
                names !! l = Some c ∧ t' = <[(a, b, c) := v]> t) →
  for_each (range (length names)) (λ i d,
    for_each (range (length names)) (λ j d,
      for_each (range (length names)) (λ l d, body i j l d) d) d) ∅ = Ok d' →
  keys_exactly (triples names) d'.
Proof.
  intros Hb Hl k. split.
  - intros Hk.
    assert (Hw : ∀ k, is_Some (d' !! k)
                 → is_Some ((∅ : gmap (A * A * A) V) !! k) ∨ k ∈ triples names).
    { eapply for_each_within; [|exact Hl]. intros i t t' _ Hi.
      eapply for_each_within; [|exact Hi]. intros j u u' _ Hj.
      eapply for_each_within; [|exact Hj]. intros l w w' _ Hl' k0 Hk0.
      destruct (Hb i j l w w' Hl') as (a & b & c & v & Ha & Hb' & Hc & ->).
      apply within_insert in Hk0 as [?| ->]; [by left|right].
      apply elem_of_triples; repeat split; eauto using list_elem_of_lookup_2. }
    destruct (Hw k Hk) as [Hold|Hin]; [|done].
    rewrite lookup_empty in Hold. by destruct Hold.
  - destruct k as [[a b] c]. intros Hk.
    apply elem_of_triples in Hk as (Ha & Hb' & Hc).
    apply list_elem_of_lookup in Ha as [i Hi].
    apply (for_each_covers
      (λ i k, names !! i = Some k.1.1 ∧ k.1.2 ∈ names ∧ k.2 ∈ names))
      in Hl as [_ Hcov].
    + apply (Hcov i); [apply elem_of_range; eauto using lookup_lt_Some|].
      simpl. eauto.
    + clear i Hi. intros i t t' _ Hi.
      apply (for_each_covers
        (λ j k, names !! i = Some k.1.1 ∧ names !! j = Some k.1.2
                ∧ k.2 ∈ names)) in Hi as [Hgrow Hcov].
      * split; [done|]. intros [[a1 b1] c1] (Ha1 & Hb1 & Hc1). simpl in *.
        apply list_elem_of_lookup in Hb1 as [j Hj].
        apply (Hcov j); [apply elem_of_range; eauto using lookup_lt_Some|].
        simpl. eauto.
      * intros j u u' _ Hj.
        apply (for_each_covers
          (λ l k, names !! i = Some k.1.1 ∧ names !! j = Some k.1.2
                  ∧ names !! l = Some k.2)) in Hj as [Hgrow Hcov].
        -- split; [done|]. intros [[a1 b1] c1] (Ha1 & Hb1 & Hc1). simpl in *.
           apply list_elem_of_lookup in Hc1 as [l Hl'].
           apply (Hcov l); [apply elem_of_range; eauto using lookup_lt_Some|].
           simpl. eauto.
        -- intros l w w' _ Hl'.
           destruct (Hb i j l w w' Hl')
             as (a1 & b1 & c1 & v & Ha1 & Hb1 & Hc1 & ->).
           split; [apply grows_insert|].
           intros [[a2 b2] c2] (Ha2 & Hb2 & Hc2). simpl in *.
           simplify_eq. rewrite lookup_insert_eq. eauto.
Qed.
End NestedKeys.

(** Closes the side condition of the lemmas on keys: an iteration that
    returns has stored one entry under the names at its indices. *)
Ltac stores_one_entry :=
  intros;
  match goal with
  | Hbody : _ = Ok _ |- _ => invert_binds Hbody; injection Hbody as <-
  end;
  eauto 12 using index_Ok_inv.

Section MethodKeys.
Context {F : Type} `{Arith F} {npix : nat}.
Implicit Types (names : list string).

Lemma get_derivative_images_keys {galaxy : Type}
    (gm : gmap string F → result galaxy) (gi : galaxy → result (vec F npix))
    names params steps D :
  get_derivative_images gm gi names params steps = Ok D → keys_exactly names D.
Proof.
  unfold get_derivative_images. apply for_each_range1_keys. stores_one_entry.
Qed.

Lemma get_second_derivatives_images_keys {galaxy : Type}
    (gm : gmap string F → result galaxy) (gi : galaxy → result (vec F npix))
    names params steps SD :
  get_second_derivatives_images gm gi names params steps = Ok SD →
  keys_exactly (pairs names) SD.
Proof.
  unfold get_second_derivatives_images. apply for_each_range2_keys.
  stores_one_entry.
Qed.

Lemma get_fisher_matrix_images_keys names (var : F)
    (D : gmap string (vec F npix)) FI :
  get_fisher_matrix_images names var D = Ok FI → keys_exactly (pairs names) FI.
Proof.
  unfold get_fisher_matrix_images. apply for_each_range2_keys.
  stores_one_entry.
Qed.

Lemma get_fisher_matrix_keys names
    (FI : gmap (string * string) (vec F npix)) FM :
  get_fisher_matrix names FI = Ok FM → keys_exactly (pairs names) FM.
Proof. unfold get_fisher_matrix. apply for_each_range2_keys. stores_one_entry. Qed.

Lemma numpy_array_to_matrix_keys names (array : list (list F)) M :
  numpy_array_to_matrix names array = Ok M → keys_exactly (pairs names) M.
Proof.
  unfold numpy_array_to_matrix. apply for_each_range2_keys. stores_one_entry.
Qed.

Lemma get_correlation_matrix_keys names (cov : gmap (string * string) F) C :
  get_correlation_matrix names cov = Ok C → keys_exactly (pairs names) C.
Proof.
  unfold get_correlation_matrix. apply for_each_range2_keys. stores_one_entry.
Qed.

Lemma get_bias_matrix_images_keys names (var : F)
    (D : gmap string (vec F npix)) (SD : gmap (string * string) (vec F npix)) B :
  get_bias_matrix_images names var D SD = Ok B → keys_exactly (triples names) B.
Proof.
  unfold get_bias_matrix_images. apply for_each_range3_keys. stores_one_entry.
Qed.

Lemma get_bias_matrix_keys names
    (B : gmap (string * string * string) (vec F npix)) BM :
  get_bias_matrix names B = Ok BM → keys_exactly (triples names) BM.
Proof. unfold get_bias_matrix. apply for_each_range3_keys. stores_one_entry. Qed.

Lemma get_bias_images_keys names (cov : gmap (string * string) F)
    (B : gmap (string * string * string) (vec F npix)) BI :
  get_bias_images names cov B = Ok BI → keys_exactly names BI.
Proof. unfold get_bias_images. apply for_each_range1_keys. stores_one_entry. Qed.

Lemma get_biases_keys names (BI : gmap string (vec F npix)) bs :
  get_biases names BI = Ok bs → keys_exactly names bs.
Proof. unfold get_biases. apply for_each_range1_keys. stores_one_entry. Qed.
End MethodKeys.

Section ConstructedKeys.
Context {F : Type} `{Arith F} {npix : nat} {galaxy renderer : Type}.
Variable get_galaxies_models_of : GParameters F → result galaxy.
Variable get_galaxies_models : gmap string F → result galaxy.
Variable get_galaxy_model : gmap string F → result galaxy.
Variable get_image : renderer → galaxy → result (list F).
Variable partials_get_image : renderer → galaxy → result (vec F npix).
Variable add_noise : list F → F → option Z → result (list F * F).
Variable get_steps : GParameters F → renderer → result (gmap string F).
Variable linalg_inv : list (list F) → result (list (list F)).
Variable linalg_cond : list (list F) → result F.

(** X1. Every dict of a constructed object is keyed by the ordering and
    by nothing else: the per-parameter dicts have exactly the names of
    [param_names] as keys, the matrices exactly the ordered pairs of
    names, the bias matrices exactly the ordered triples, whatever the
    collaborators (renderer, step policy, [numpy.linalg.inv]) returned. *)
Theorem constructed_dicts_keyed_by_ordering
    (g : GParameters F) (r : renderer) (snr0 : F) (vn : option F) self :
  __init__ get_galaxies_models_of get_galaxies_models get_galaxy_model
    get_image partials_get_image add_noise get_steps linalg_inv linalg_cond
    g r snr0 vn = Ok self →
  param_names self = ordered_fit_names g ∧
  keys_exactly (param_names self) (derivatives_images self) ∧
  keys_exactly (pairs (param_names self)) (second_derivatives_images self) ∧
  keys_exactly (pairs (param_names self)) (fisher_matrix_images self) ∧
  keys_exactly (pairs (param_names self)) (fisher_matrix self) ∧
  keys_exactly (pairs (param_names self)) (covariance_matrix self) ∧
  keys_exactly (pairs (param_names self)) (correlation_matrix self) ∧
  keys_exactly (triples (param_names self)) (bias_matrix_images self) ∧
  keys_exactly (triples (param_names self)) (bias_matrix self) ∧
  keys_exactly (param_names self) (bias_images self) ∧
  keys_exactly (param_names self) (biases self).
Proof.
  intros Hinit.
  destruct (constructed_stages _ _ _ _ _ _ _ _ _ _ _ _ _ _ Hinit)
    as (Hnames & _ & _ & HD & HSD & HFI & HFM & Hcov & Hcorr & HB & HBM
        & HBI & Hbs & _).
  unfold get_covariance_matrix in Hcov. invert_binds Hcov.
  split; [done|].
  split; [by eapply get_derivative_images_keys|].
  split; [by eapply get_second_derivatives_images_keys|].
  split; [by eapply get_fisher_matrix_images_keys|].
  split; [by eapply get_fisher_matrix_keys|].
  split; [by eapply numpy_array_to_matrix_keys|].
  split; [by eapply get_correlation_matrix_keys|].
  split; [by eapply get_bias_matrix_images_keys|].
  split; [by eapply get_bias_matrix_keys|].
  split; [by eapply get_bias_images_keys|].
  by eapply get_biases_keys.
Qed.
End ConstructedKeys.

(** ** Missing entries *)

Section RaisingNestedLoops.
Context {A St : Type}.
Implicit Types (names : list A).

Lemma for_each_range1_raises names (body : nat → St → result St)
    (body' : A → St → result St) e0 s :
  (∀ i a s, names !! i = Some a → body i s = body' a s) →
  (∀ a t e, a ∈ names → body' a t = Raise e → e = e0) →
  (∃ a, a ∈ names ∧ ∀ t, ∃ e, body' a t = Raise e) →
  for_each (range (length names)) body s = Raise e0.
Proof.
  intros Hb Honly Hraise.
  rewrite (for_each_range_names names body body') by done.
  by apply for_each_raises.
Qed.

Lemma for_each_range2_raises names (body : nat → nat → St → result St)
    (body' : A * A → St → result St) e0 s :
  (∀ i j a b s, names !! i = Some a → names !! j = Some b →
     body i j s = body' (a, b) s) →
  (∀ k t e, k ∈ pairs names → body' k t = Raise e → e = e0) →
  (∃ k, k ∈ pairs names ∧ ∀ t, ∃ e, body' k t = Raise e) →
  for_each (range (length names)) (λ i s,
    for_each (range (length names)) (λ j s, body i j s) s) s = Raise e0.
Proof.
  intros Hb Honly Hraise.
  rewrite (for_each_range2 names body body') by done.
  by apply for_each_raises.
Qed.

Lemma for_each_range3_raises names (body : nat → nat → nat → St → result St)
    (body' : A * A * A → St → result St) e0 s :
  (∀ i j l a b c s, names !! i = Some a → names !! j = Some b →
     names !! l = Some c → body i j l s = body' (a, b, c) s) →
  (∀ k t e, k ∈ triples names → body' k t = Raise e → e = e0) →
  (∃ k, k ∈ triples names ∧ ∀ t, ∃ e, body' k t = Raise e) →
  for_each (range (length names)) (λ i s,
    for_each (range (length names)) (λ j s,
      for_each (range (length names)) (λ l s, body i j l s) s) s) s
  = Raise e0.
Proof.
  intros Hb Honly Hraise.
  rewrite (for_each_range3 names body body') by done.
  by apply for_each_raises.
Qed.
End RaisingNestedLoops.

Lemma getitem_None `{Countable K} {V} (d : gmap K V) k :
  d !! k = None → getitem d k = Raise KeyError.
Proof. unfold getitem. by intros ->. Qed.

(** Splits a sequence of statements that raised at the statement that
    raised, when every statement is a dict read. *)
Ltac raised_KeyError H :=
  repeat match type of H with
  | (?m ≫= _) = Raise _ =>
      let E := fresh "Hread" in
      destruct m eqn:E;
        [ rewrite bind_Ok in H
        | apply getitem_Raise in E as [_ ->]; simpl in H; congruence ]
  end;
  try discriminate H.

Section FisherAssemblerErrors.
Context {F : Type} `{Arith F} {npix : nat}.
Implicit Types (names : list string).

(** X2. The Fisher assembler fails only for a missing entry, and then
    with KeyError: [get_fisher_matrix_images] returns when every name of
    the ordering has a derivative image and raises KeyError as soon as
    one name has none; [get_fisher_matrix] returns when every ordered
    pair has a Fisher image and raises KeyError as soon as one pair has
    none. *)
Theorem fisher_assembler_missing_entry names (var_noise : F)
    (D : gmap string (vec F npix)) (FI : gmap (string * string) (vec F npix)) :
  (populated names D →
   ∃ FI', get_fisher_matrix_images names var_noise D = Ok FI') ∧
  (∀ a, a ∈ names → D !! a = None →
   get_fisher_matrix_images names var_noise D = Raise KeyError) ∧
  (populated (pairs names) FI → ∃ FM, get_fisher_matrix names FI = Ok FM) ∧
  (∀ k, k ∈ pairs names → FI !! k = None →
   get_fisher_matrix names FI = Raise KeyError).
Proof.
  split; [intros HD; eexists; by apply get_fisher_matrix_images_eq|].
  split; [|split; [intros HFI; eexists; by apply get_fisher_matrix_eq|]].
  - intros a Ha Hnone. unfold get_fisher_matrix_images.
    apply (for_each_range2_raises names _
      (λ k d, derivative1 ← getitem D k.1; derivative2 ← getitem D k.2;
              Ok (<[k := img_div_scalar (img_mul derivative1 derivative2)
                            var_noise]> d))).
    + intros i j a' b' s Hi Hj. by read_names.
    + intros k t e _ Hk. raised_KeyError Hk.
    + exists (a, a). split; [by apply elem_of_pairs|].
      intros t. exists KeyError. simpl. by rewrite (getitem_None _ _ Hnone).
  - intros k Hk Hnone. unfold get_fisher_matrix.
    apply (for_each_range2_raises names _
      (λ k d, fisher_image ← getitem FI k;
              Ok (<[k := img_sum fisher_image]> d))).
    + intros i j a' b' s Hi Hj. by read_names.
    + intros k' t e _ Hk'. raised_KeyError Hk'.
    + exists k. split; [done|].
      intros t. exists KeyError. by rewrite (getitem_None _ _ Hnone).
Qed.
End FisherAssemblerErrors.

Section BiasEngineMore.
Context {F : Type} `{Arith F} {npix : nat}.
Implicit Types (names : list string) (D BI : gmap string (vec F npix)).
Implicit Types (SD : gmap (string * string) (vec F npix)).
Implicit Types (B : gmap (string * string * string) (vec F npix)).
Implicit Types (cov : gmap (string * string) F).


(** The statements of the innermost loop of [get_bias_images], for the
    target name [a]. *)
Lemma bias_images_inner_loop names cov B i a summation :
  names !! i = Some a →
  for_each (range (length names)) (λ j summation,
    for_each (range (length names)) (λ k summation,
      for_each (range (length names)) (λ l summation,
        param_i ← index names i;
        param_j ← index names j;
        param_k ← index names k;
        param_l ← index names l;
        cov_ij ← getitem cov (param_i, param_j);
        cov_kl ← getitem cov (param_k, param_l);
        bias_jkl ← getitem B (param_j, param_k, param_l);
        Ok (img_add summation (img_scale (mul cov_ij cov_kl) bias_jkl)))
        summation) summation) summation
  = for_each (triples names) (λ t summation,
      cov_ij ← getitem cov (a, t.1.1);
      cov_kl ← getitem cov (t.1.2, t.2);
      bias_jkl ← getitem B t;
      Ok (img_add summation (img_scale (mul cov_ij cov_kl) bias_jkl)))
      summation.
Proof.
  intros Hi. apply (for_each_range3 names). intros j k l b c d s Hj Hk Hl.
  by read_names.
Qed.

(** X4. The bias engine raises KeyError as soon as an entry it reads is
    missing: [get_bias_matrix_images] when a name has no derivative
    image or a pair no second-derivative image, [get_bias_matrix] when a
    triple has no bias matrix image, [get_bias_images] when a pair has no
    covariance entry or a triple no bias matrix image, [get_biases] when
    a name has no bias image. *)
Theorem bias_engine_missing_entry names (var_noise : F) D SD B BI cov :
  (∀ a, a ∈ names → D !! a = None →
   get_bias_matrix_images names var_noise D SD = Raise KeyError) ∧
  (∀ k, k ∈ pairs names → SD !! k = None →
   get_bias_matrix_images names var_noise D SD = Raise KeyError) ∧
  (∀ t, t ∈ triples names → B !! t = None →
   get_bias_matrix names B = Raise KeyError) ∧
  (∀ k, k ∈ pairs names → cov !! k = None →
   get_bias_images names cov B = Raise KeyError) ∧
  (∀ t, t ∈ triples names → B !! t = None →
   get_bias_images names cov B = Raise KeyError) ∧
  (∀ a, a ∈ names → BI !! a = None →
   get_biases names BI = Raise KeyError).
Proof.
  assert (Himages : ∀ t, t ∈ triples names →
            (D !! t.1.1 = None ∨ SD !! (t.1.2, t.2) = None) →
            get_bias_matrix_images names var_noise D SD = Raise KeyError).
  { intros t Ht Hnone. unfold get_bias_matrix_images.
    apply (for_each_range3_raises names _
      (λ t d, derivative ← getitem D t.1.1;
              second ← getitem SD (t.1.2, t.2);
              Ok (<[t := img_div_scalar (img_mul derivative second)
                            var_noise]> d))).
    - intros i j l a b c s Hi Hj Hl. by read_names.
    - intros t' u e _ Ht'. raised_KeyError Ht'.
    - exists t. split; [done|]. intros u.
      destruct Hnone as [Hnone|Hnone].
      + exists KeyError. by rewrite (getitem_None _ _ Hnone).
      + destruct (getitem D t.1.1) as [x|e] eqn:Hx; [|by exists e].
        exists KeyError. by rewrite bind_Ok, (getitem_None _ _ Hnone). }
  assert (Hinner : ∀ a e summation,
            for_each (triples names) (λ t summation,
              cov_ij ← getitem cov (a, t.1.1);
              cov_kl ← getitem cov (t.1.2, t.2);
              bias_jkl ← getitem B t;
              Ok (img_add summation (img_scale (mul cov_ij cov_kl) bias_jkl)))
              summation = Raise e → e = KeyError).
  { intros a e summation He.
    apply for_each_Raise in He as (t & s & _ & He). raised_KeyError He. }
  assert (Hbias : ∀ a t, a ∈ names → t ∈ triples names →
            (cov !! (a, t.1.1) = None ∨ cov !! (t.1.2, t.2) = None
             ∨ B !! t = None) →
            get_bias_images names cov B = Raise KeyError).
  { intros a t Ha Ht Hnone. unfold get_bias_images.
    apply (for_each_range1_raises names _
      (λ a d,
         summation ← for_each (triples names) (λ t summation,
           cov_ij ← getitem cov (a, t.1.1);
           cov_kl ← getitem cov (t.1.2, t.2);
           bias_jkl ← getitem B t;
           Ok (img_add summation (img_scale (mul cov_ij cov_kl) bias_jkl)))
           img_zero;
         Ok (<[a := img_scale neg_half summation]> d))).
    - intros i a' s Hi. rewrite (bias_images_inner_loop _ _ _ _ a') by done.
      destruct (for_each (triples names) _ img_zero); [|done].
      rewrite !bind_Ok. by read_names.
    - intros a' u e _ He.
      destruct (for_each (triples names) _ img_zero) eqn:Hloop; [done|].
      simpl in He. injection He as <-. by eapply Hinner.
    - exists a. split; [done|]. intros u. exists KeyError.
      rewrite (for_each_raises (triples names) _ img_zero KeyError); [done| |].
      + intros t' s e _ He. raised_KeyError He.
      + exists t. split; [done|]. intros s.
        destruct (getitem cov (a, t.1.1)) as [x|e] eqn:Hx; [|by exists e].
        destruct (getitem cov (t.1.2, t.2)) as [y|e] eqn:Hy;
          [|exists e; by rewrite bind_Ok].
        destruct Hnone as [Hnone|[Hnone|Hnone]].
        * by rewrite (getitem_None _ _ Hnone) in Hx.
        * by rewrite (getitem_None _ _ Hnone) in Hy.
        * exists KeyError. by rewrite !bind_Ok, (getitem_None _ _ Hnone). }
  split; [|split; [|split; [|split; [|split]]]].
  - intros a Ha Hnone. apply (Himages (a, a, a)); [|by left].
    by apply elem_of_triples.
  - intros [a b] Hk Hnone. apply elem_of_pairs in Hk as [Ha Hb].
    apply (Himages (a, a, b)); [|by right]. by apply elem_of_triples.
  - intros t Ht Hnone. unfold get_bias_matrix.
    apply (for_each_range3_raises names _
      (λ t d, bias_image ← getitem B t; Ok (<[t := img_sum bias_image]> d))).
    + intros i j l a b c s Hi Hj Hl. by read_names.
    + intros t' u e _ Ht'. raised_KeyError Ht'.
    + exists t. split; [done|]. intros u. exists KeyError.
      by rewrite (getitem_None _ _ Hnone).
  - intros [a b] Hk Hnone. apply elem_of_pairs in Hk as [Ha Hb].
    apply (Hbias a (b, b, b)); [done|by apply elem_of_triples|by left].
  - intros [[a b] c] Ht Hnone. pose proof Ht as Ht'.
    apply elem_of_triples in Ht' as (Ha & Hb & Hc).
    apply (Hbias a (a, b, c)); [done..|auto].
  - intros a Ha Hnone. unfold get_biases.
    apply (for_each_range1_raises names _
      (λ a d, bias_image ← getitem BI a; Ok (<[a := img_sum bias_image]> d))).
    + intros i a' s Hi. by read_names.
    + intros a' u e _ Ha'. raised_KeyError Ha'.
    + exists a. split; [done|]. intros u. exists KeyError.
      by rewrite (getitem_None _ _ Hnone).
Qed.
End BiasEngineMore.

Section LinearSolverErrors.
Implicit Types (names : list string) (cov : gmap (string * string) float).

(** X5. In binary64, when the covariance has an entry for every ordered
    pair and the diagonal entry of some parameter is below zero,
    [get_correlation_matrix] raises ValueError ([math.sqrt] of a negative
    number) and returns no matrix. *)
Theorem correlation_negative_variance_raises names cov a :
  populated (pairs names) cov → a ∈ names →
  PrimFloat.ltb (cov !!! (a, a)) 0 = true →
  get_correlation_matrix names cov = Raise ValueError.
Proof.
  intros Hcov Ha Hneg. unfold get_correlation_matrix.
  apply (for_each_range2_raises names _
    (λ k d,
       sigma_ij ← getitem cov k;
       sigma_i ← (c ← getitem cov (k.1, k.1); math_sqrt c);
       sigma_j ← (c ← getitem cov (k.2, k.2); math_sqrt c);
       Ok (<[k := div sigma_ij (mul sigma_i sigma_j)]> d))).
  - intros i j a' b' s Hi Hj. by read_names.
  - intros [a' b'] t e Hk He. apply elem_of_pairs in Hk as [Ha' Hb'].
    simpl in He.
    rewrite !getitem_total, !bind_Ok in He
      by (eapply populated_elem; [done|]; by apply elem_of_pairs).
    unfold math_sqrt in He; simpl in He.
    destruct (PrimFloat.ltb (cov !!! (a', a')) 0); [by injection He as <-|].
    rewrite bind_Ok in He.
    destruct (PrimFloat.ltb (cov !!! (b', b')) 0); [by injection He as <-|].
    done.
  - exists (a, a). split; [by apply elem_of_pairs|]. intros t.
    exists ValueError. simpl.
    rewrite !getitem_total, !bind_Ok
      by (eapply populated_elem; [done|]; by apply elem_of_pairs).
    unfold math_sqrt; simpl. by rewrite Hneg.
Qed.
End LinearSolverErrors.

(** ** More on the labeling layer *)

Lemma index_Raise {A} (l : list A) i e :
  index l i = Raise e → l !! i = None ∧ e = IndexError.
Proof. unfold index. destruct (l !! i); [done|]. by intros [= <-]. Qed.

Lemma index_None {A} (l : list A) i :
  l !! i = None → index l i = Raise IndexError.
Proof. unfold index. by intros ->. Qed.

Section LabelingMore.
Context {F : Type} `{Arith F}.
Implicit Types (names : list string) (M : gmap (string * string) F).
Implicit Types (array : list (list F)).

(** X6. A named matrix that has an entry for every ordered pair of the
    ordering, and possibly entries under other keys, converts to a dense
    array that converts back to the matrix without its other entries:
    the round trip keeps exactly the entries of the ordering. *)
Theorem named_round_trip_drops_other_keys names M :
  populated (pairs names) M →
  ∃ array,
    matrix_to_numpy_array names M = Ok array ∧
    numpy_array_to_matrix names array
    = Ok (filter (λ kv, kv.1 ∈ pairs names) M).
Proof.
  intros HM.
  destruct (matrix_to_numpy_array_spec names M HM) as (array & Harr & _ & Hent).
  exists array. split; [done|].
  rewrite (numpy_array_to_matrix_eq names array (λ k, M !!! k)) by done.
  f_equal. apply map_eq. intros k. rewrite lookup_tabulate.
  case_decide as Hk.
  - destruct (populated_elem _ _ _ HM Hk) as [x Hx].
    rewrite (lookup_total_correct _ _ _ Hx). symmetry.
    by apply map_lookup_filter_Some.
  - rewrite lookup_empty. symmetry. apply map_lookup_filter_None.
    right. by intros x _.
Qed.

(** The leading block of an array: its first [n] rows, cut to their
    first [n] entries. *)
Lemma at2_leading_block array n i j :
  i < n → j < n → at2 (take n <$> take n array) i j = at2 array i j.
Proof.
  intros Hi Hj. unfold at2.
  rewrite list_lookup_fmap, lookup_take_lt by done.
  destruct (array !! i) as [row|]; simpl; [|done]. by apply lookup_take_lt.
Qed.

Lemma square_leading_block array n :
  (∀ i, i < n → ∃ row, array !! i = Some row ∧ n ≤ length row) →
  square n (take n <$> take n array).
Proof.
  intros Hrows. split.
  - rewrite length_fmap, length_take_le; [done|].
    destruct n as [|n]; [lia|]. destruct (Hrows n) as (row & Hrow & _); [lia|].
    apply lookup_lt_Some in Hrow. lia.
  - apply Forall_forall. intros row' Hrow'.
    apply list_elem_of_fmap in Hrow' as (row & -> & Hrow).
    apply list_elem_of_lookup in Hrow as [i Hi].
    rewrite lookup_take in Hi. case_decide as Hlt; [|done].
    destruct (Hrows i Hlt) as (row0 & Hrow0 & Hlen). simplify_eq.
    by apply length_take_le.
Qed.

(** X7. When the names of the ordering are distinct and the array has
    at least P rows of at least P entries, [numpy_array_to_matrix]
    returns and [matrix_to_numpy_array] of what it returns is the leading
    P×P block of the array: the entries beyond row P or column P are
    never read. *)
Theorem dense_round_trip_is_leading_block names array :
  NoDup names →
  (∀ i, i < length names →
     ∃ row, array !! i = Some row ∧ length names ≤ length row) →
  ∃ M,
    numpy_array_to_matrix names array = Ok M ∧
    matrix_to_numpy_array names M
    = Ok (take (length names) <$> take (length names) array).
Proof.
  intros Hnd Hrows.
  set (g := λ k : string * string,
    default zero (at2 array (position names k.1) (position names k.2))).
  assert (Hg : ∀ i j a b, names !! i = Some a → names !! j = Some b →
               at2 array i j = Some (g (a, b))).
  { intros i j a b Hi Hj. unfold g. simpl.
    rewrite (position_lookup names i a), (position_lookup names j b) by done.
    destruct (Hrows i) as (row & Hrow & Hlen); [eauto using lookup_lt_Some|].
    destruct (lookup_lt_is_Some_2 row j) as [x Hx].
    { apply lookup_lt_Some in Hj. lia. }
    unfold at2. by rewrite Hrow; simpl; rewrite Hx. }
  exists (tabulate g (pairs names) ∅).
  split; [by apply numpy_array_to_matrix_eq|].
  destruct (matrix_to_numpy_array_spec names (tabulate g (pairs names) ∅))
    as (array' & -> & Hsq' & Hent); [apply populated_tabulate|].
  f_equal.
  apply (square_ext (length names)); [done|by apply square_leading_block|].
  intros i j Hi Hj.
  destruct (lookup_lt_is_Some_2 names i Hi) as [a Ha].
  destruct (lookup_lt_is_Some_2 names j Hj) as [b Hb].
  rewrite at2_leading_block, (Hent i j a b Ha Hb), (Hg i j a b Ha Hb) by done.
  f_equal. apply lookup_total_correct, lookup_tabulate_elem.
  apply elem_of_pairs; eauto using list_elem_of_lookup_2.
Qed.

(** X8. [numpy_array_to_matrix] raises IndexError as soon as one of the
    first P rows of the array is missing or has fewer than P entries. *)
Theorem numpy_array_to_matrix_too_small names array i :
  i < length names →
  (array !! i = None ∨
   ∃ row, array !! i = Some row ∧ length row < length names) →
  numpy_array_to_matrix names array = Raise IndexError.
Proof.
  intros Hi Hsmall. unfold numpy_array_to_matrix.
  assert (Honly : ∀ i' j (t : gmap (string * string) F) e,
            (param_i ← index names i'; param_j ← index names j;
             row ← index array i'; element ← index row j;
             Ok (<[(param_i, param_j) := element]> t)) = Raise e →
            e = IndexError).
  { intros i' j t e He.
    repeat match type of He with
    | (?m ≫= _) = Raise _ =>
        let E := fresh "Hread" in
        destruct m eqn:E;
          [ rewrite bind_Ok in He
          | apply index_Raise in E as [_ ->]; simpl in He; congruence ]
    end. done. }
  destruct (lookup_lt_is_Some_2 names i Hi) as [a Ha].
  apply for_each_raises.
  - intros i' t e _ He. apply for_each_Raise in He as (j & u & _ & He).
    by eapply Honly.
  - exists i. split; [by apply elem_of_range|]. intros t. exists IndexError.
    apply for_each_raises.
    + intros j u e _ He. by eapply Honly.
    + destruct Hsmall as [Hnone|(row & Hrow & Hlen)].
      * exists i. split; [by apply elem_of_range|]. intros u.
        exists IndexError. rewrite !(index_Some _ _ _ Ha), !bind_Ok.
        by rewrite (index_None _ _ Hnone).
      * exists (length row). split; [by apply elem_of_range|]. intros u.
        destruct (lookup_lt_is_Some_2 names (length row) Hlen) as [b Hb].
        exists IndexError.
        rewrite (index_Some _ _ _ Ha), bind_Ok, (index_Some _ _ _ Hb), bind_Ok.
        rewrite (index_Some _ _ _ Hrow), bind_Ok.
        by rewrite (index_None row (length row)) by by apply lookup_ge_None_2.
Qed.

Lemma matrix_to_numpy_array_Ok_populated names M array :
  matrix_to_numpy_array names M = Ok array → populated (pairs names) M.
Proof.
  unfold matrix_to_numpy_array. intros Hl.
  apply Forall_forall. intros [a b] Hk. apply elem_of_pairs in Hk as [Ha Hb].
  apply list_elem_of_lookup in Ha as [i Hi].
  apply list_elem_of_lookup in Hb as [j Hj].
  destruct (for_each_Ok_each _ _ _ _ Hl i) as (t & t' & Hin).
  { apply elem_of_range. eauto using lookup_lt_Some. }
  destruct (for_each_Ok_each _ _ _ _ Hin j) as (u & u' & Hbody).
  { apply elem_of_range. eauto using lookup_lt_Some. }
  rewrite (index_Some _ _ _ Hi), bind_Ok, (index_Some _ _ _ Hj), bind_Ok in Hbody.
  unfold getitem in Hbody. destruct (M !! (a, b)); [eauto|done].
Qed.

Lemma matrix_to_numpy_array_raises_KeyError names M e :
  matrix_to_numpy_array names M = Raise e → e = KeyError.
Proof.
  unfold matrix_to_numpy_array. set (n := length names). intros Hl.
  assert (Hstep : ∀ i j u u',
            i < n → j < n → square n u →
            (param_i ← index names i; param_j ← index names j;
             element ← getitem M (param_i, param_j);
             setitem2 u i j element) = Ok u' → square n u').
  { intros i j u u' Hi Hj Hu Hbody. invert_binds Hbody.
    match type of Hbody with
    | setitem2 _ _ _ ?x = _ =>
        destruct (setitem2_spec n u i j x) as (u'' & Hu'' & Hsq & _); [done..|]
    end. congruence. }
  apply (for_each_Raise_inv (square n)) in Hl as (i & t & Hi & Ht & Hin).
  - apply elem_of_range in Hi.
    apply (for_each_Raise_inv (square n)) in Hin as (j & u & Hj & Hu & Hbody).
    + apply elem_of_range in Hj.
      destruct (lookup_lt_is_Some_2 names i Hi) as [a Ha].
      destruct (lookup_lt_is_Some_2 names j Hj) as [b Hb].
      rewrite (index_Some _ _ _ Ha), bind_Ok, (index_Some _ _ _ Hb), bind_Ok
        in Hbody.
      destruct (getitem M (a, b)) as [x|e'] eqn:Hx.
      * rewrite bind_Ok in Hbody.
        destruct (setitem2_spec n u i j x) as (u' & Hu' & _); [done..|].
        congruence.
      * apply getitem_Raise in Hx as [_ ->]. simpl in Hbody. congruence.
    + intros j u u' Hj Hu Hbody. apply elem_of_range in Hj.
      exact (Hstep i j u u' Hi Hj Hu Hbody).
    + done.
  - intros i t t' Hi Ht Hin. apply elem_of_range in Hi.
    assert (Hkeep : ∀ l u, square n u → (∀ j, j ∈ l → j < n) →
              for_each l (λ j array,
                param_i ← index names i; param_j ← index names j;
                element ← getitem M (param_i, param_j);
                setitem2 array i j element) u = Ok t' → square n t').
    { clear Hin Ht. induction l as [|j l IH]; intros u Hu Hlt Hloop.
      - by injection Hloop as <-.
      - cbn [for_each] in Hloop.
        match type of Hloop with
        | (?m ≫= _) = _ => destruct m as [u'|] eqn:Hbody; [|done]
        end.
        rewrite bind_Ok in Hloop. apply (IH u'); [| |done].
        + apply (Hstep i j u u' Hi); [apply Hlt; left|done..].
        + intros j' Hj'. apply Hlt. by right. }
    eapply Hkeep; [done| |done]. intros j Hj. by apply elem_of_range in Hj.
  - apply square_replicate.
Qed.

(** X9. When the named matrix lacks the entry of some ordered pair of
    the ordering, [matrix_to_numpy_array] raises KeyError, and so do
    [get_covariance_matrix] and [get_fisher_condition_number], whatever
    [numpy.linalg.inv] and [numpy.linalg.cond] would do: they are not
    reached. *)
Theorem dense_conversion_missing_entry names M k
    (linalg_inv : list (list F) → result (list (list F)))
    (linalg_cond : list (list F) → result F) :
  k ∈ pairs names → M !! k = None →
  matrix_to_numpy_array names M = Raise KeyError ∧
  get_covariance_matrix linalg_inv names M = Raise KeyError ∧
  get_fisher_condition_number linalg_cond names M = Raise KeyError.
Proof.
  intros Hk Hnone.
  assert (Hdense : matrix_to_numpy_array names M = Raise KeyError).
  { destruct (matrix_to_numpy_array names M) as [array|e] eqn:Harr.
    - apply matrix_to_numpy_array_Ok_populated in Harr.
      destruct (populated_elem _ _ _ Harr Hk) as [x Hx]. congruence.
    - f_equal. by eapply matrix_to_numpy_array_raises_KeyError. }
  split; [done|]. unfold get_covariance_matrix, get_fisher_condition_number.
  by rewrite Hdense.
Qed.
End LabelingMore.

(** ** Symmetry *)

Section Symmetry.
Context {F : Type} `{Arith F} {npix : nat}.
Hypothesis mul_comm : ∀ x y : F, mul x y = mul y x.
Implicit Types (names : list string).

Lemma fisher_image_spec_comm (D : gmap string (vec F npix)) (var : F) i j :
  fisher_image_spec D var (i, j) = fisher_image_spec D var (j, i).
Proof.
  apply vec_eq. intros p. unfold fisher_image_spec. simpl.
  by rewrite !img_div_scalar_lookup, !img_mul_lookup, mul_comm.
Qed.

(** X10. When the multiplication of the arithmetic is commutative (it is
    in binary64 and over the reals), the Fisher matrix images and the
    Fisher matrix that [get_fisher_matrix_images] and [get_fisher_matrix]
    return are symmetric, entry for entry. *)
Theorem fisher_matrix_symmetric names (var_noise : F)
    (D : gmap string (vec F npix)) :
  populated names D →
  ∃ FI FM,
    get_fisher_matrix_images names var_noise D = Ok FI ∧
    get_fisher_matrix names FI = Ok FM ∧
    ∀ i j, i ∈ names → j ∈ names →
      FI !! (i, j) = FI !! (j, i) ∧ FM !! (i, j) = FM !! (j, i).
Proof.
  intros HD. eexists _, _.
  split; [by apply get_fisher_matrix_images_eq|].
  split; [apply get_fisher_matrix_eq, populated_tabulate|].
  intros i j Hi Hj.
  assert (Hij : (i, j) ∈ pairs names) by by apply elem_of_pairs.
  assert (Hji : (j, i) ∈ pairs names) by by apply elem_of_pairs.
  assert (HFI : tabulate (fisher_image_spec D var_noise) (pairs names) ∅
                  !! (i, j)
                = tabulate (fisher_image_spec D var_noise) (pairs names) ∅
                  !! (j, i)).
  { by rewrite !lookup_tabulate_elem, fisher_image_spec_comm. }
  split; [done|]. rewrite !lookup_tabulate_elem by done.
  by rewrite !lookup_total_alt, HFI.
Qed.

(** What a returned correlation matrix says of the covariance it was
    computed from. *)
Lemma get_correlation_matrix_Ok_inv names (cov : gmap (string * string) F) C :
  get_correlation_matrix names cov = Ok C →
  populated (pairs names) cov ∧
  Forall (λ a, ∃ y, math_sqrt (cov !!! (a, a)) = Ok y) names.
Proof.
  unfold get_correlation_matrix. intros Hl.
  assert (Hbody : ∀ a b, a ∈ names → b ∈ names →
            is_Some (cov !! (a, b)) ∧ ∃ y, math_sqrt (cov !!! (a, a)) = Ok y).
  { intros a b Ha Hb.
    apply list_elem_of_lookup in Ha as [i Hi].
    apply list_elem_of_lookup in Hb as [j Hj].
    destruct (for_each_Ok_each _ _ _ _ Hl i) as (t & t' & Hin).
    { apply elem_of_range. eauto using lookup_lt_Some. }
    destruct (for_each_Ok_each _ _ _ _ Hin j) as (u & u' & Hb').
    { apply elem_of_range. eauto using lookup_lt_Some. }
    rewrite (index_Some _ _ _ Hi), bind_Ok, (index_Some _ _ _ Hj), bind_Ok in Hb'.
    unfold getitem in Hb'.
    destruct (cov !! (a, b)) as [x|]; [|done]. rewrite bind_Ok in Hb'.
    destruct (cov !! (a, a)) as [c|] eqn:Hc; [|done]. rewrite bind_Ok in Hb'.
    rewrite (lookup_total_correct _ _ _ Hc).
    destruct (math_sqrt c) as [y|]; [eauto|done]. }
  split.
  - apply Forall_forall. intros [a b] Hk. apply elem_of_pairs in Hk as [Ha Hb].
    by apply Hbody.
  - apply Forall_forall. intros a Ha. by apply (Hbody a a).
Qed.

(** X11. When the multiplication is commutative and the covariance is
    symmetric on the ordering, every correlation matrix that
    [get_correlation_matrix] returns is symmetric, entry for entry. *)
Theorem correlation_matrix_symmetric names
    (cov : gmap (string * string) F) C :
  get_correlation_matrix names cov = Ok C →
  (∀ i j, i ∈ names → j ∈ names → cov !! (i, j) = cov !! (j, i)) →
  ∀ i j, i ∈ names → j ∈ names → C !! (i, j) = C !! (j, i).
Proof.
  intros HC Hsym i j Hi Hj.
  destruct (get_correlation_matrix_Ok_inv _ _ _ HC) as [Hcov Hsqrt].
  set (sqrt_of := λ x, match math_sqrt x with Ok y => y | Raise _ => zero end).
  rewrite (get_correlation_matrix_eq names cov sqrt_of) in HC.
  - injection HC as <-.
    rewrite !lookup_tabulate_elem by by apply elem_of_pairs.
    unfold correlation_spec. simpl.
    by rewrite !lookup_total_alt, (Hsym i j), mul_comm.
  - done.
  - eapply Forall_impl; [exact Hsqrt|]. intros a [y Hy]. unfold sqrt_of.
    by rewrite Hy.
Qed.
End Symmetry.

(** ** Exact arithmetic: sums over the reals *)

Lemma vec_to_list_enum {A n} (v : vec A n) :
  vec_to_list v = (λ p, v !!! p) <$> fin_enum n.
Proof.
  induction v as [|x n v IH]; [done|].
  cbn [fin_enum fmap list_fmap]. simpl. f_equal.
  rewrite IH, <-list_fmap_compose. done.
Qed.

Section RealSums.
Local Open Scope R_scope.
Implicit Types (l : list R).

Lemma real_foldl_add (a : R) l : foldl add a l = a + foldl add 0 l.
Proof.
  revert a. induction l as [|x l IH]; intros a; cbn [foldl]; [lra|].
  rewrite (IH (add a x)), (IH (add 0 x)). simpl. lra.
Qed.

Lemma real_sum_nil : sum_list ([] : list R) = 0.
Proof. reflexivity. Qed.

Lemma real_sum_cons (x : R) l : sum_list (x :: l) = x + sum_list l.
Proof.
  unfold sum_list. cbn [foldl]. rewrite real_foldl_add. simpl. lra.
Qed.

Lemma real_sum_nonneg l : Forall (λ x, 0 <= x) l → 0 <= sum_list l.
Proof.
  induction 1 as [|x l Hx _ IH]; [rewrite real_sum_nil; lra|].
  rewrite real_sum_cons. lra.
Qed.

Lemma real_sum_zero l : Forall (λ x, x = 0) l → sum_list l = 0.
Proof.
  induction 1 as [|x l Hx _ IH]; [done|]. rewrite real_sum_cons. lra.
Qed.

Lemma real_sum_ext {A} (f g : A → R) (xs : list A) :
  (∀ x, x ∈ xs → f x = g x) → sum_list (f <$> xs) = sum_list (g <$> xs).
Proof.
  induction xs as [|x xs IH]; intros Hfg; [done|].
  cbn [fmap list_fmap]. rewrite !real_sum_cons, (Hfg x) by left.
  f_equal. apply IH. intros y Hy. apply Hfg. by right.
Qed.

Lemma real_sum_plus {A} (f g : A → R) (xs : list A) :
  sum_list ((λ x, f x + g x) <$> xs)
  = sum_list (f <$> xs) + sum_list (g <$> xs).
Proof.
  induction xs as [|x xs IH]; [unfold sum_list; simpl; lra|].
  cbn [fmap list_fmap]. rewrite !real_sum_cons, IH. lra.
Qed.

Lemma real_sum_scale {A} (c : R) (f : A → R) (xs : list A) :
  sum_list ((λ x, c * f x) <$> xs) = c * sum_list (f <$> xs).
Proof.
  induction xs as [|x xs IH]; [unfold sum_list; simpl; lra|].
  cbn [fmap list_fmap]. rewrite !real_sum_cons, IH. lra.
Qed.

Lemma real_sum_exchange {A B} (f : A → B → R) (xs : list A) (ys : list B) :
  sum_list ((λ x, sum_list ((λ y, f x y) <$> ys)) <$> xs)
  = sum_list ((λ y, sum_list ((λ x, f x y) <$> xs)) <$> ys).
Proof.
  induction xs as [|x xs IH].
  - cbn [fmap list_fmap]. rewrite real_sum_nil. symmetry. apply real_sum_zero.
    apply Forall_fmap, Forall_forall. by intros y _.
  - cbn [fmap list_fmap]. rewrite real_sum_cons, IH, <-real_sum_plus.
    apply real_sum_ext. intros y _. by rewrite real_sum_cons.
Qed.

Lemma real_sum_app l1 l2 : sum_list (l1 ++ l2) = sum_list l1 + sum_list l2.
Proof.
  induction l1 as [|x l1 IH]; [rewrite app_nil_l, real_sum_nil; lra|].
  rewrite <-app_comm_cons, !real_sum_cons, IH. lra.
Qed.

Lemma real_sum_zip_with l1 l2 :
  length l1 = length l2 →
  sum_list (zip_with add l1 l2) = sum_list l1 + sum_list l2.
Proof.
  revert l2. induction l1 as [|x l1 IH]; intros [|y l2] Hlen; try done.
  - cbn [zip_with]. rewrite real_sum_nil. lra.
  - cbn [zip_with]. rewrite !real_sum_cons, IH by (simpl in Hlen; lia).
    simpl. lra.
Qed.

(** In exact arithmetic the order in which numpy adds the entries does
    not matter: the partial sums of a block, the block, the pairwise sum
    and the reduction all give the sum of the entries. *)
Lemma real_add_blocks blocks (r l : list R) :
  length r = 8%nat → (8 * blocks ≤ length l)%nat →
  length (add_blocks blocks r l).1 = 8%nat ∧
  sum_list (add_blocks blocks r l).1 + sum_list (add_blocks blocks r l).2
  = sum_list r + sum_list l.
Proof.
  revert r l. induction blocks as [|blocks IH]; intros r l Hr Hl; [done|].
  cbn [add_blocks].
  assert (Ht : length (take 8 l) = 8%nat) by (rewrite length_take; lia).
  destruct (IH (zip_with add r (take 8 l)) (drop 8 l)) as [Hlen Hsum].
  - rewrite length_zip_with. lia.
  - rewrite length_drop. lia.
  - split; [exact Hlen|]. rewrite Hsum, real_sum_zip_with by lia.
    pose proof (real_sum_app (take 8 l) (drop 8 l)) as Happ.
    rewrite take_drop in Happ. lra.
Qed.

Lemma real_sum_block l : (8 ≤ length l)%nat → sum_block l = sum_list l.
Proof.
  intros Hl. unfold sum_block.
  assert (Hdiv : (8 * (length l / 8) ≤ length l)%nat)
    by apply Nat.Div0.mul_div_le.
  destruct (real_add_blocks (length l / 8 - 1) (take 8 l) (drop 8 l))
    as [Hlen Hsum].
  - rewrite length_take. lia.
  - rewrite length_drop. lia.
  - destruct (add_blocks (length l / 8 - 1) (take 8 l) (drop 8 l))
      as [r rest]. cbn [fst snd] in Hlen, Hsum.
    destruct r as [|r0 [|r1 [|r2 [|r3 [|r4 [|r5 [|r6 [|r7 [|r8 r]]]]]]]]];
      try discriminate Hlen.
    rewrite real_foldl_add. change (foldl add 0 rest) with (sum_list rest).
    pose proof (real_sum_app (take 8 l) (drop 8 l)) as Happ.
    rewrite take_drop in Happ.
    rewrite !real_sum_cons, real_sum_nil in Hsum. simpl. lra.
Qed.

Lemma real_pairwise_sum fuel l :
  (length l ≤ 128 + fuel)%nat → pairwise_sum fuel l = sum_list l.
Proof.
  revert l. induction fuel as [|fuel IH]; intros l Hl; cbn [pairwise_sum];
    (case_decide as H8; [done|]);
    (case_decide as H128; [apply real_sum_block; lia|]); [lia|].
  set (n2 := (length l / 2 - (length l / 2) mod 8)%nat).
  assert (Hhalf : (2 * (length l / 2) ≤ length l)%nat)
    by apply Nat.Div0.mul_div_le.
  assert (Hhalf' : (length l < 2 * (length l / 2) + 2)%nat).
  { pose proof (Nat.div_mod_eq (length l) 2).
    pose proof (Nat.mod_upper_bound (length l) 2). lia. }
  assert (Hmod : ((length l / 2) mod 8 < 8)%nat)
    by (apply Nat.mod_upper_bound; lia).
  assert (Hmod' : ((length l / 2) mod 8 ≤ length l / 2)%nat)
    by (apply Nat.Div0.mod_le).
  rewrite !IH.
  - pose proof (real_sum_app (take n2 l) (drop n2 l)) as Happ.
    rewrite take_drop in Happ. by rewrite Happ.
  - rewrite length_drop. unfold n2. lia.
  - rewrite length_take. unfold n2. lia.
Qed.

Lemma real_np_sum l : np_sum l = sum_list l.
Proof.
  unfold np_sum. rewrite real_pairwise_sum by lia. simpl. lra.
Qed.

(** The sum over the pixels of an image, as a sum over the pixel
    positions. *)
Lemma real_img_sum {npix} (img : vec R npix) :
  img_sum img = sum_list ((λ p, img !!! p) <$> fin_enum npix).
Proof. unfold img_sum. by rewrite real_np_sum, vec_to_list_enum. Qed.
End RealSums.

Lemma fisher_matrix_closed_form {F : Type} `{Arith F} {npix : nat}
    (names : list string) (var_noise : F) (D : gmap string (vec F npix)) :
  populated names D →
  ∃ FI FM,
    get_fisher_matrix_images names var_noise D = Ok FI ∧
    get_fisher_matrix names FI = Ok FM ∧
    ∀ i j, i ∈ names → j ∈ names →
      FM !! (i, j) = Some (img_sum (fisher_image_spec D var_noise (i, j))).
Proof.
  intros HD. eexists _, _.
  split; [by apply get_fisher_matrix_images_eq|].
  split; [apply get_fisher_matrix_eq, populated_tabulate|].
  intros i j Hi Hj.
  assert (Hij : (i, j) ∈ pairs names) by by apply elem_of_pairs.
  rewrite lookup_tabulate_elem by done. f_equal. f_equal.
  apply lookup_total_correct. by rewrite lookup_tabulate_elem.
Qed.

(** ** Exact arithmetic: the Fisher matrix *)

Section RealFisher.
Context {npix : nat}.
Local Open Scope R_scope.
Implicit Types (names : list string) (D : gmap string (vec R npix)).

Lemma real_fisher_image_sum D (var : R) i j :
  img_sum (fisher_image_spec D var (i, j))
  = sum_list ((λ p, (D !!! i) !!! p * (D !!! j) !!! p / var)
                <$> fin_enum npix).
Proof.
  rewrite real_img_sum. apply real_sum_ext. intros p _.
  unfold fisher_image_spec. simpl.
  by rewrite img_div_scalar_lookup, img_mul_lookup.
Qed.


(** X13. In exact arithmetic and for a positive noise variance, the
    Fisher matrix is positive semi-definite: its diagonal entries are not
    negative and, for every choice of a coefficient [c i] per parameter,
    the quadratic form [Σ_i Σ_j c i * c j * fisher_matrix[i,j]] over the
    ordering is not negative. *)
Theorem fisher_matrix_positive_semidefinite names (var_noise : R) D :
  populated names D → 0 < var_noise →
  ∃ FI FM,
    get_fisher_matrix_images names var_noise D = Ok FI ∧
    get_fisher_matrix names FI = Ok FM ∧
    (∀ i, i ∈ names → 0 <= FM !!! (i, i)) ∧
    ∀ c : string → R,
      0 <= sum_list ((λ i,
             sum_list ((λ j, c i * c j * FM !!! (i, j)) <$> names))
             <$> names).
Proof.
  intros HD Hvar.
  destruct (fisher_matrix_closed_form names var_noise D HD)
    as (FI & FM & HFI & HFM & Hent).
  exists FI, FM. split; [done|]. split; [done|].
  assert (Hentry : ∀ i j, i ∈ names → j ∈ names →
            FM !!! (i, j)
            = sum_list ((λ p, (D !!! i) !!! p * (D !!! j) !!! p / var_noise)
                          <$> fin_enum npix)).
  { intros i j Hi Hj. rewrite <-real_fisher_image_sum.
    apply lookup_total_correct. by apply Hent. }
  split.
  - intros i Hi. rewrite Hentry by done.
    apply real_sum_nonneg, Forall_fmap, Forall_forall. intros p _. simpl.
    apply Rmult_le_pos; [apply Rle_0_sqr|].
    apply Rlt_le, Rinv_0_lt_compat, Hvar.
  - intros c.
    set (d := λ (i : string) (p : fin npix), (D !!! i) !!! p).
    set (S := λ p, sum_list ((λ i, c i * d i p) <$> names)).
    assert (Hform :
      sum_list ((λ i, sum_list ((λ j, c i * c j * FM !!! (i, j)) <$> names))
                  <$> names)
      = sum_list ((λ p, S p * S p / var_noise) <$> fin_enum npix)).
    { transitivity
        (sum_list ((λ i, sum_list ((λ p,
           sum_list ((λ j, (c i * d i p) * (c j * d j p) / var_noise)
                       <$> names)) <$> fin_enum npix)) <$> names)).
      - apply real_sum_ext. intros i Hi.
        rewrite <-real_sum_exchange. apply real_sum_ext. intros j Hj.
        rewrite Hentry by done.
        rewrite <-(real_sum_scale (c i * c j)
                     (λ p, (D !!! i) !!! p * (D !!! j) !!! p / var_noise)).
        apply real_sum_ext. intros p _. unfold d, Rdiv. lra.
      - rewrite real_sum_exchange. apply real_sum_ext. intros p _.
        transitivity
          (sum_list ((λ i, (S p * / var_noise) * (c i * d i p)) <$> names)).
        + apply real_sum_ext. intros i _.
          transitivity
            (sum_list ((λ j, (c i * d i p * / var_noise) * (c j * d j p))
                         <$> names)).
          * apply real_sum_ext. intros j _. unfold Rdiv. lra.
          * rewrite real_sum_scale. fold (S p). lra.
        + rewrite real_sum_scale. fold (S p). unfold Rdiv. lra. }
    rewrite Hform.
    apply real_sum_nonneg, Forall_fmap, Forall_forall. intros p _. simpl.
    apply Rmult_le_pos; [apply Rle_0_sqr|].
    apply Rlt_le, Rinv_0_lt_compat, Hvar.
Qed.
End RealFisher.

(** ** Exact arithmetic: the finite differences *)

Lemma perturb_perturb_comm {F : Type} `{Arith F} (op1 op2 : F → F → F)
    (steps v : gmap string F) (i j : string) :
  i ≠ j →
  perturb op1 steps (perturb op2 steps v i) j
  = perturb op2 steps (perturb op1 steps v j) i.
Proof.
  intros Hne. unfold perturb.
  rewrite !lookup_total_insert_ne by done. by apply insert_insert_ne.
Qed.

Lemma perturb_perturb_same {F : Type} `{Arith F} (op1 op2 : F → F → F)
    (steps v : gmap string F) (k : string) :
  perturb op1 steps (perturb op2 steps v k) k
  = <[k := op1 (op2 (v !!! k) (steps !!! k)) (steps !!! k)]> v.
Proof.
  unfold perturb. by rewrite lookup_total_insert_eq, insert_insert_eq.
Qed.

Section RealDifferences.
Context {npix : nat} {galaxy : Type}.
Variable get_galaxies_models : gmap string R → result galaxy.
Variable partials_get_image : galaxy → result (vec R npix).
Local Open Scope R_scope.
Implicit Types (names : list string) (params steps : gmap string R).
Implicit Types (Rd : gmap string R → vec R npix).

Lemma second_difference_spec_comm Rd params steps i j :
  second_difference_spec Rd params steps (i, j)
  = second_difference_spec Rd params steps (j, i).
Proof.
  destruct (decide (i = j)) as [->|Hne]; [done|].
  unfold second_difference_spec. cbn [fst snd].
  rewrite (perturb_perturb_comm add add steps params j i) by done.
  rewrite (perturb_perturb_comm sub sub steps params j i) by done.
  rewrite (perturb_perturb_comm add sub steps params j i) by done.
  rewrite (perturb_perturb_comm sub add steps params j i) by done.
  apply vec_eq. intros p.
  rewrite !img_div_scalar_lookup, !img_sub_lookup, !img_add_lookup. simpl.
  f_equal; lra.
Qed.

(** X14. In exact arithmetic, the second-derivative images that
    [get_second_derivatives_images] computes independently for (i,j) and
    for (j,i) are equal: the dict it returns is symmetric. *)
Theorem second_derivative_images_symmetric Rd names params steps :
  populated names params → populated names steps →
  Forall (λ k : string * string,
    renders get_galaxies_models partials_get_image Rd
      (perturb add steps (perturb add steps params k.1) k.2) ∧
    renders get_galaxies_models partials_get_image Rd
      (perturb add steps (perturb sub steps params k.1) k.2) ∧
    renders get_galaxies_models partials_get_image Rd
      (perturb sub steps (perturb add steps params k.1) k.2) ∧
    renders get_galaxies_models partials_get_image Rd
      (perturb sub steps (perturb sub steps params k.1) k.2))
    (pairs names) →
  ∃ SD,
    get_second_derivatives_images get_galaxies_models partials_get_image
      names params steps = Ok SD ∧
    ∀ i j, i ∈ names → j ∈ names → SD !! (i, j) = SD !! (j, i).
Proof.
  intros Hp Hs HR. eexists.
  split; [by apply get_second_derivatives_images_eq|].
  intros i j Hi Hj.
  rewrite !lookup_tabulate_elem by by apply elem_of_pairs.
  by rewrite second_difference_spec_comm.
Qed.

(** X15. In exact arithmetic, finite differences are exact on a renderer
    that is affine in a parameter k: when the image rendered with k set
    to x is [x * A + B] for all x, and the step of k is not zero, the
    first-derivative image of k is the slope [A] and the second-derivative
    image of (k,k) is the zero image. *)
Theorem differences_exact_on_affine_renderer Rd names params steps k
    (A B : vec R npix) :
  populated names params → populated names steps →
  Forall (λ k,
    renders get_galaxies_models partials_get_image Rd (perturb add steps params k) ∧
    renders get_galaxies_models partials_get_image Rd (perturb sub steps params k))
    names →
  Forall (λ k : string * string,
    renders get_galaxies_models partials_get_image Rd
      (perturb add steps (perturb add steps params k.1) k.2) ∧
    renders get_galaxies_models partials_get_image Rd
      (perturb add steps (perturb sub steps params k.1) k.2) ∧
    renders get_galaxies_models partials_get_image Rd
      (perturb sub steps (perturb add steps params k.1) k.2) ∧
    renders get_galaxies_models partials_get_image Rd
      (perturb sub steps (perturb sub steps params k.1) k.2))
    (pairs names) →
  k ∈ names → steps !!! k ≠ 0 →
  (∀ x, Rd (<[k := x]> params) = img_add (img_scale x A) B) →
  ∃ D SD,
    get_derivative_images get_galaxies_models partials_get_image
      names params steps = Ok D ∧
    get_second_derivatives_images get_galaxies_models partials_get_image
      names params steps = Ok SD ∧
    D !! k = Some A ∧ SD !! (k, k) = Some img_zero.
Proof.
  intros Hp Hs HR1 HR2 Hk Hstep Haffine. eexists _, _.
  split; [by apply get_derivative_images_eq|].
  split; [by apply get_second_derivatives_images_eq|].
  rewrite !lookup_tabulate_elem by (done || by apply elem_of_pairs).
  split; f_equal; apply vec_eq; intros p.
  - unfold first_difference_spec, perturb. rewrite !Haffine.
    rewrite img_div_scalar_lookup, img_sub_lookup, !img_add_lookup,
      !img_scale_lookup. simpl. field. done.
  - unfold second_difference_spec. cbn [fst snd].
    rewrite !perturb_perturb_same, !Haffine.
    rewrite img_div_scalar_lookup, !img_sub_lookup, !img_add_lookup,
      !img_scale_lookup, img_zero_lookup. simpl. field. done.
Qed.
End RealDifferences.

(** ** Exact arithmetic: the signal-to-noise ratio *)

Section RealSnr.
Local Open Scope R_scope.

Lemma real_sum_foldr (l : list R) : sum_list l = foldr Rplus 0 l.
Proof.
  induction l as [|x l IH]; [done|]. rewrite real_sum_cons, IH. done.
Qed.

(** X17. In exact arithmetic and for a positive noise variance,
    [get_snr] is not negative and its square times the variance is the
    sum of the squares of the pixels, whatever the number of pixels (the
    order in which numpy adds them is of no account here). *)
Theorem get_snr_squared (img : list R) (var_noise : R) :
  0 < var_noise →
  0 <= get_snr img var_noise ∧
  get_snr img var_noise * get_snr img var_noise * var_noise
  = foldr Rplus 0 ((λ x, x * x) <$> img).
Proof.
  intros Hvar. unfold get_snr. rewrite real_np_sum, <-real_sum_foldr.
  assert (Hsq : 0 <= sum_list ((λ x : R, mul x x) <$> img)).
  { apply real_sum_nonneg, Forall_fmap, Forall_forall. intros x _.
    simpl. apply Rle_0_sqr. }
  split; [apply sqrt_pos|].
  change (np_sqrt ?x) with (R_sqrt.sqrt x). change (div ?x ?y) with (x / y).
  rewrite sqrt_sqrt.
  - change (λ x : R, mul x x) with (λ x : R, x * x). field. lra.
  - apply Rmult_le_pos; [done|]. apply Rlt_le, Rinv_0_lt_compat, Hvar.
Qed.
End RealSnr.

(** ** The noise variance of the constructor *)

Section NoiseVariance.
Context {F : Type} `{Arith F} {galaxy renderer : Type}.
Variable get_galaxy_model : gmap string F → result galaxy.
Variable get_image : renderer → galaxy → result (list F).
Variable add_noise : list F → F → option Z → result (list F * F).

Lemma snrs_loop (g : GParameters F) (r : renderer) (v : F)
    (ids : list string) (acc l : list F) :
  for_each ids (λ id_gal snrs,
    params_galaxy ← assoc_getitem (id_params g) id_gal;
    model_galaxy ← get_galaxy_model params_galaxy;
    image_galaxy ← get_image r model_galaxy;
    Ok (snrs ++ [get_snr image_galaxy v])) acc = Ok l →
  ∃ rest, l = acc ++ rest ∧ Forall2 (recorded_snr get_galaxy_model get_image g r v) ids rest.
Proof.
  revert acc. induction ids as [|id ids IH]; intros acc Hl.
  - injection Hl as <-. exists []. by rewrite app_nil_r.
  - cbn [for_each] in Hl.
    match type of Hl with
    | (?m ≫= _) = _ => destruct m as [acc'|] eqn:Hbody; [|done]
    end.
    rewrite bind_Ok in Hl. destruct (IH _ Hl) as (rest & -> & Hrest).
    invert_binds Hbody. injection Hbody as <-.
    eexists (_ :: rest). split; [by rewrite <-app_assoc|].
    constructor; [|done]. unfold recorded_snr. eauto 10.
Qed.

(** X16. How the constructor derives the noise variance when none is
    given. For one galaxy it is the variance [add_noise] returns on the
    image of the model, with seed 0, and no list of ratios is kept. For
    several galaxies it is the variance [add_noise] returns on the image
    of the galaxy with id '1', without a seed, and [snrs] has one entry
    per galaxy of [id_params]: first the [snr] argument itself, then, for
    every galaxy after the first in the order of the dict (whatever its
    id), [get_snr] of the image of that galaxy under that variance. *)
Theorem noise_variance_when_not_given
    (g : GParameters F) (r : renderer) (image : list F) (snr0 v : F)
    (sn : option (list F)) :
  init_var_noise get_galaxy_model get_image add_noise g r image snr0 None
    = Ok (v, sn) →
  (num_galaxies g = 1 →
     sn = None ∧ ∃ noisy, add_noise image snr0 (Some 0%Z) = Ok (noisy, v)) ∧
  (num_galaxies g ≠ 1 →
     ∃ params1 model1 image1 noisy rest,
       assoc_getitem (id_params g) "1" = Ok params1 ∧
       get_galaxy_model params1 = Ok model1 ∧
       get_image r model1 = Ok image1 ∧
       add_noise image1 snr0 None = Ok (noisy, v) ∧
       sn = Some (snr0 :: rest) ∧
       length (snr0 :: rest) = length (id_params g) ∧
       Forall2 (recorded_snr get_galaxy_model get_image g r v) (tail (id_params g).*1) rest).
Proof.
  unfold init_var_noise. intros Hinit. split; intros Hn.
  - rewrite decide_True in Hinit by done.
    destruct (add_noise image snr0 (Some 0%Z)) as [[noisy v']|] eqn:Hnoise;
      [|done].
    rewrite bind_Ok in Hinit. injection Hinit as -> <-. eauto.
  - rewrite decide_False in Hinit by done.
    destruct (assoc_getitem (id_params g) "1") as [params1|] eqn:H1; [|done].
    rewrite bind_Ok in Hinit.
    destruct (get_galaxy_model params1) as [model1|] eqn:H2; [|done].
    rewrite bind_Ok in Hinit.
    destruct (get_image r model1) as [image1|] eqn:H3; [|done].
    rewrite bind_Ok in Hinit.
    destruct (add_noise image1 snr0 None) as [[noisy v']|] eqn:H4; [|done].
    rewrite bind_Ok in Hinit.
    match type of Hinit with
    | (?m ≫= _) = _ => destruct m as [l|] eqn:Hloop; [|done]
    end.
    rewrite bind_Ok in Hinit. injection Hinit as -> <-.
    apply snrs_loop in Hloop as (rest & -> & Hrest).
    exists params1, model1, image1, noisy, rest.
    repeat (split; [done|]). split; [|done].
    apply Forall2_length in Hrest. simpl. rewrite <-Hrest.
    destruct (id_params g) as [|kv ids]; [done|].
    simpl. by rewrite length_fmap.
Qed.
End NoiseVariance.

(** ** Exact arithmetic: the bias of a model without curvature *)

Section RealBias.
Context {npix : nat}.
Local Open Scope R_scope.
Implicit Types (names : list string) (D : gmap string (vec R npix)).
Implicit Types (SD : gmap (string * string) (vec R npix)).
Implicit Types (cov : gmap (string * string) R).


End RealBias.

(** * Concrete runs of the further properties *)

(** Decides a closed decidable proposition by evaluation. *)
Ltac evaluated := apply (bool_decide_unpack _); vm_compute; exact I.

Section MoreRuns.
Import Sample Sample2.
Local Open Scope float_scope.

(** X1 on a construction that completes. *)
Lemma constructed_dicts_keyed_by_ordering_witness :
  ∃ self, construct linear_image 0.5 10 (Some 2) = Ok self ∧
    keys_exactly (pairs (param_names self)) (covariance_matrix self) ∧
    keys_exactly (triples (param_names self)) (bias_matrix self) ∧
    keys_exactly (param_names self) (biases self).
Proof.
  destruct (construct linear_image 0.5 10 (Some 2)) as [self|e] eqn:Hrun.
  - exists self. split; [reflexivity|].
    destruct (constructed_dicts_keyed_by_ordering
                get_galaxies_models_of get_galaxies_models get_galaxy_model
                get_image linear_image Sample.add_noise (get_steps 0.5)
                linalg_inv linalg_cond g_parameters () 10 (Some 2) self Hrun)
      as (_ & _ & _ & _ & _ & Hcov & _ & _ & HBM & _ & Hbs).
    auto.
  - vm_compute in Hrun. discriminate Hrun.
Defined.

(** X2: the name [b] has no derivative image. *)
Lemma fisher_assembler_missing_entry_witness :
  "b"%string ∈ names ∧
  ({["a"%string := [# 1; 2]]} : gmap string (vec float 2)) !! "b"%string = None ∧
  get_fisher_matrix_images names 2 {["a"%string := [# 1; 2]]} = Raise KeyError.
Proof.
  split; [evaluated|]. split; [reflexivity|].
  apply (proj1 (proj2 (fisher_assembler_missing_entry names 2
                         {["a"%string := [# 1; 2]]} ∅)) "b"%string).
  - evaluated.
  - reflexivity.
Defined.


(** X4: the pair (b,a) has no covariance entry. *)
Lemma bias_engine_missing_entry_witness :
  ("b", "a")%string ∈ pairs names ∧
  ({[("a", "a")%string := 2]} : gmap (string * string) float)
    !! ("b", "a")%string = None ∧
  get_bias_images names {[("a", "a")%string := 2]} bias_matrix_images
    = Raise KeyError.
Proof.
  split; [evaluated|]. split; [reflexivity|].
  destruct (bias_engine_missing_entry names 2 derivatives seconds
              bias_matrix_images bias_images {[("a", "a")%string := 2]})
    as (_ & _ & _ & Hcov & _).
  apply (Hcov ("b", "a")%string); [evaluated | reflexivity].
Defined.

(** X5 at the covariance entry -1. *)
Lemma correlation_negative_variance_raises_witness :
  populated (pairs ["a"%string]) negative_variance ∧
  PrimFloat.ltb (negative_variance !!! ("a", "a")%string) 0 = true ∧
  get_correlation_matrix ["a"%string] negative_variance = Raise ValueError.
Proof.
  split; [evaluated|]. split; [vm_compute; reflexivity|].
  apply (correlation_negative_variance_raises ["a"%string]
           negative_variance "a"%string).
  - evaluated.
  - evaluated.
  - vm_compute. reflexivity.
Defined.

(** X6 on a matrix with the other key (z,a). *)
Lemma named_round_trip_drops_other_keys_witness :
  populated (pairs names) with_other_key ∧
  ∃ array,
    matrix_to_numpy_array names with_other_key = Ok array ∧
    numpy_array_to_matrix names array
    = Ok (filter (λ kv, kv.1 ∈ pairs names) with_other_key).
Proof.
  split; [evaluated|].
  apply (named_round_trip_drops_other_keys names with_other_key). evaluated.
Defined.

(** X7 on a 3×3 array and two names. *)
Lemma dense_round_trip_is_leading_block_witness :
  NoDup names ∧
  ∃ M,
    numpy_array_to_matrix names dense3 = Ok M ∧
    matrix_to_numpy_array names M
    = Ok (take (length names) <$> take (length names) dense3).
Proof.
  split; [evaluated|].
  apply (dense_round_trip_is_leading_block names dense3); [evaluated|].
  intros i Hi. destruct i as [|[|i]].
  - eexists. split; [reflexivity|simpl; lia].
  - eexists. split; [reflexivity|simpl; lia].
  - simpl in Hi. lia.
Defined.

(** X8 on an array whose second row has one entry. *)
Lemma numpy_array_to_matrix_too_small_witness :
  (1 < length names)%nat ∧
  (∃ row, ragged !! 1%nat = Some row ∧ (length row < length names)%nat) ∧
  numpy_array_to_matrix names ragged = Raise IndexError.
Proof.
  assert (Hi : (1 < length names)%nat) by (simpl; lia).
  assert (Hrow : ∃ row, ragged !! 1%nat = Some row
                        ∧ (length row < length names)%nat)
    by (eexists; split; [reflexivity|simpl; lia]).
  split; [exact Hi|]. split; [exact Hrow|].
  apply (numpy_array_to_matrix_too_small names ragged 1%nat Hi). by right.
Defined.

(** X9: the pair (b,b) has no entry. *)
Lemma dense_conversion_missing_entry_witness :
  ("b", "b")%string ∈ pairs names ∧
  ({[("a", "a")%string := 2]} : gmap (string * string) float)
    !! ("b", "b")%string = None ∧
  get_covariance_matrix linalg_inv names {[("a", "a")%string := 2]}
    = Raise KeyError.
Proof.
  split; [evaluated|]. split; [reflexivity|].
  apply (dense_conversion_missing_entry names {[("a", "a")%string := 2]}
           ("b", "b")%string linalg_inv linalg_cond); [evaluated|reflexivity].
Defined.

(** X10 in binary64, whose multiplication is commutative. *)
Lemma fisher_matrix_symmetric_witness :
  (∀ x y : float, mul x y = mul y x) ∧ populated names derivatives ∧
  ∃ FI FM,
    get_fisher_matrix_images names 2 derivatives = Ok FI ∧
    get_fisher_matrix names FI = Ok FM ∧
    FM !! ("a", "b")%string = FM !! ("b", "a")%string.
Proof.
  split; [exact float_mul_comm|]. split; [evaluated|].
  destruct (fisher_matrix_symmetric float_mul_comm names 2 derivatives)
    as (FI & FM & HFI & HFM & Hsym); [evaluated|].
  exists FI, FM. split; [exact HFI|]. split; [exact HFM|].
  apply Hsym; evaluated.
Defined.

(** X11 in binary64, on a symmetric covariance. *)
Lemma correlation_matrix_symmetric_witness :
  ∃ C, get_correlation_matrix names covariance = Ok C ∧
       C !! ("a", "b")%string = C !! ("b", "a")%string.
Proof.
  destruct (get_correlation_matrix names covariance) as [C|e] eqn:HC.
  - exists C. split; [reflexivity|].
    apply (correlation_matrix_symmetric float_mul_comm names covariance C HC);
      [|evaluated..].
    intros i j Hi Hj.
    apply list_elem_of_In in Hi, Hj. simpl in Hi, Hj.
    destruct Hi as [<-|[<-|[]]], Hj as [<-|[<-|[]]]; reflexivity.
  - vm_compute in HC. discriminate HC.
Defined.

(** X16 on two galaxies listed with the galaxy '2' first: the variance
    is that of the galaxy '1', the second ratio is that of the galaxy
    '1' again. *)
Lemma noise_variance_when_not_given_witness :
  init_var_noise get_galaxy_model get_image Sample2.add_noise
    two_galaxies () [0] 10 None = Ok (4, Some [10; 0.5]) ∧
  ∃ rest,
    Some [10; 0.5] = Some (10 :: rest) ∧
    length (10 :: rest) = length (id_params two_galaxies) ∧
    Forall2 (recorded_snr get_galaxy_model get_image two_galaxies () 4)
      (tail (id_params two_galaxies).*1) rest.
Proof.
  assert (Hrun : init_var_noise get_galaxy_model get_image Sample2.add_noise
                   two_galaxies () [0] 10 None = Ok (4, Some [10; 0.5]))
    by (vm_compute; reflexivity).
  split; [exact Hrun|].
  destruct (proj2 (noise_variance_when_not_given get_galaxy_model get_image
                     Sample2.add_noise two_galaxies () [0] 10 4
                     (Some [10; 0.5]) Hrun))
    as (p1 & m1 & i1 & noisy & rest & _ & _ & _ & _ & Hsn & Hlen & Hrest);
    [simpl; lia|].
  exists rest. auto.
Defined.
End MoreRuns.

Section RealRuns.
Import SampleR.
Local Open Scope R_scope.

Lemma sample_derivatives_populated : populated names derivatives.
Proof. repeat constructor; eexists; reflexivity. Qed.


(** X13 at the variance 2 and the coefficients 1 and -1. *)
Lemma fisher_matrix_positive_semidefinite_witness :
  populated names derivatives ∧ 0 < 2 ∧
  ∃ FI FM,
    get_fisher_matrix_images names 2 derivatives = Ok FI ∧
    get_fisher_matrix names FI = Ok FM ∧
    0 <= FM !!! ("b", "b")%string ∧
    0 <= sum_list ((λ i,
           sum_list ((λ j,
             (if decide (i = "a"%string) then 1 else -1)
             * (if decide (j = "a"%string) then 1 else -1)
             * FM !!! (i, j)) <$> names)) <$> names).
Proof.
  split; [exact sample_derivatives_populated|]. split; [lra|].
  destruct (fisher_matrix_positive_semidefinite names 2 derivatives
              sample_derivatives_populated ltac:(lra))
    as (FI & FM & HFI & HFM & Hdiag & Hform).
  exists FI, FM. split; [exact HFI|]. split; [exact HFM|].
  split; [apply Hdiag; repeat constructor|].
  exact (Hform (λ i, if decide (i = "a"%string) then 1 else -1)).
Defined.

(** The affine renderer returns [rendered v] on every vector that has
    the parameter [a]. *)
Lemma sample_renders v :
  is_Some (v !! "a"%string) →
  renders get_galaxies_models partials_get_image rendered v.
Proof.
  intros Ha. unfold renders, render, get_galaxies_models, partials_get_image.
  by rewrite bind_Ok, getitem_total, bind_Ok.
Qed.

Lemma sample_base_populated : populated ["a"%string] base.
Proof. repeat constructor; eexists; reflexivity. Qed.
Lemma sample_steps_populated : populated ["a"%string] step_sizes.
Proof. repeat constructor; eexists; reflexivity. Qed.

Lemma sample_first_corners :
  Forall (λ k,
    renders get_galaxies_models partials_get_image rendered
      (perturb add step_sizes base k) ∧
    renders get_galaxies_models partials_get_image rendered
      (perturb sub step_sizes base k)) ["a"%string].
Proof.
  repeat constructor; apply sample_renders;
    repeat apply perturb_is_Some; eexists; reflexivity.
Qed.

Lemma sample_second_corners :
  Forall (λ k : string * string,
    renders get_galaxies_models partials_get_image rendered
      (perturb add step_sizes (perturb add step_sizes base k.1) k.2) ∧
    renders get_galaxies_models partials_get_image rendered
      (perturb add step_sizes (perturb sub step_sizes base k.1) k.2) ∧
    renders get_galaxies_models partials_get_image rendered
      (perturb sub step_sizes (perturb add step_sizes base k.1) k.2) ∧
    renders get_galaxies_models partials_get_image rendered
      (perturb sub step_sizes (perturb sub step_sizes base k.1) k.2))
    (pairs ["a"%string]).
Proof.
  repeat constructor; apply sample_renders;
    repeat apply perturb_is_Some; eexists; reflexivity.
Qed.

(** The renderer of the product returns [product v] on every vector
    that has both parameters. *)
Lemma product_renders v :
  is_Some (v !! "a"%string) → is_Some (v !! "b"%string) →
  renders get_galaxies_models product_image product v.
Proof.
  intros Ha Hb. unfold renders, render, get_galaxies_models, product_image.
  by rewrite bind_Ok, !getitem_total, !bind_Ok.
Qed.

Lemma sample_base2_populated : populated names base2.
Proof. repeat constructor; eexists; reflexivity. Qed.
Lemma sample_steps2_populated : populated names step_sizes2.
Proof. repeat constructor; eexists; reflexivity. Qed.

Lemma product_second_corners :
  Forall (λ k : string * string,
    renders get_galaxies_models product_image product
      (perturb add step_sizes2 (perturb add step_sizes2 base2 k.1) k.2) ∧
    renders get_galaxies_models product_image product
      (perturb add step_sizes2 (perturb sub step_sizes2 base2 k.1) k.2) ∧
    renders get_galaxies_models product_image product
      (perturb sub step_sizes2 (perturb add step_sizes2 base2 k.1) k.2) ∧
    renders get_galaxies_models product_image product
      (perturb sub step_sizes2 (perturb sub step_sizes2 base2 k.1) k.2))
    (pairs names).
Proof.
  repeat constructor; apply product_renders;
    repeat apply perturb_is_Some; eexists; reflexivity.
Qed.

(** X14 on two parameters and the renderer of their product, at the
    pair (a,b): the images stored under (a,b) and under (b,a) are equal,
    and they are the image [1], the mixed second derivative of [a * b]. *)
Lemma second_derivative_images_symmetric_witness :
  populated names base2 ∧ populated names step_sizes2 ∧
  ∃ SD,
    get_second_derivatives_images get_galaxies_models product_image
      names base2 step_sizes2 = Ok SD ∧
    SD !! ("a", "b")%string = SD !! ("b", "a")%string ∧
    SD !! ("a", "b")%string = Some [# 1].
Proof.
  split; [exact sample_base2_populated|].
  split; [exact sample_steps2_populated|].
  destruct (second_derivative_images_symmetric
              get_galaxies_models product_image product
              names base2 step_sizes2
              sample_base2_populated sample_steps2_populated
              product_second_corners) as (SD & HSD & Hsym).
  exists SD. split; [exact HSD|].
  split; [apply Hsym; repeat constructor|].
  rewrite (get_second_derivatives_images_eq get_galaxies_models product_image
             product names base2 step_sizes2 sample_base2_populated
             sample_steps2_populated product_second_corners) in HSD.
  injection HSD as HSD. subst SD.
  rewrite !(lookup_insert_ne _ ("b", _)%string ("a", "b")%string) by done.
  rewrite lookup_insert_eq.
  f_equal. unfold second_difference_spec, product, perturb. cbn [fst snd].
  rewrite !lookup_total_insert_eq.
  rewrite !(lookup_total_insert_ne _ "b"%string "a"%string) by done.
  rewrite !lookup_total_insert_eq.
  change (base2 !!! "a"%string) with 1. change (base2 !!! "b"%string) with 2.
  change (step_sizes2 !!! "a"%string) with (/ 2).
  change (step_sizes2 !!! "b"%string) with (/ 4).
  unfold img_div_scalar, img_sub, img_add. simpl. f_equal. field.
Defined.

(** X15 on the affine renderer, with the step 1/2. *)
Lemma differences_exact_on_affine_renderer_witness :
  step_sizes !!! "a"%string ≠ 0 ∧
  (∀ x, rendered (<["a"%string := x]> base)
        = img_add (img_scale x slope) offset) ∧
  ∃ D SD,
    get_derivative_images get_galaxies_models partials_get_image
      ["a"%string] base step_sizes = Ok D ∧
    get_second_derivatives_images get_galaxies_models partials_get_image
      ["a"%string] base step_sizes = Ok SD ∧
    D !! "a"%string = Some slope ∧ SD !! ("a", "a")%string = Some img_zero.
Proof.
  assert (Hstep : step_sizes !!! "a"%string ≠ 0).
  { change (step_sizes !!! "a"%string) with (/ 2). lra. }
  assert (Haffine : ∀ x, rendered (<["a"%string := x]> base)
                         = img_add (img_scale x slope) offset).
  { intros x. unfold rendered. by rewrite lookup_total_insert_eq. }
  split; [exact Hstep|]. split; [exact Haffine|].
  apply (differences_exact_on_affine_renderer
           get_galaxies_models partials_get_image rendered
           ["a"%string] base step_sizes "a"%string slope offset
           sample_base_populated sample_steps_populated
           sample_first_corners sample_second_corners);
    [repeat constructor | exact Hstep | exact Haffine].
Defined.


(** X17 on an image of nine pixels, 3, 4 and seven times 0, and the
    variance 1: the sum of the squares is 25 and the ratio is 5. *)
Lemma get_snr_squared_witness :
  0 < 1 ∧
  get_snr [3; 4; 0; 0; 0; 0; 0; 0; 0] 1
    * get_snr [3; 4; 0; 0; 0; 0; 0; 0; 0] 1 * 1 = 25 ∧
  get_snr [3; 4; 0; 0; 0; 0; 0; 0; 0] 1 = 5.
Proof.
  split; [lra|].
  destruct (get_snr_squared [3; 4; 0; 0; 0; 0; 0; 0; 0] 1) as [Hpos Hsq];
    [lra|].
  cbn [fmap list_fmap foldr] in Hsq.
  split; [lra|]. nra.
Defined.
End RealRuns.
